(** * A shallow embedding of the portfolio page's interaction layer (src/App.jsx)

    The page is one React component tree.  What is embedded here is the part
    of it that carries behaviour: the scroll-spy hook, the accent preference
    kept in [localStorage], the project filter and tag bar, the action row of
    the project modal, the clipboard helper and the toast with its timer.

    JavaScript conventions used throughout:
    - [null] and [undefined] are [None]; a present value is [Some];
    - strings are compared code unit by code unit ([String.eqb]);
    - a statement that may throw lives in the [JS] monad below, which threads
      the mutable world and stops at the first [Throw]. *)

From Stdlib Require Import String Ascii List Bool Arith Lia QArith Lqa Sorted.
From stdpp Require Import gmap strings.
Import ListNotations.
Open Scope string_scope.
Open Scope list_scope.

(** ** JavaScript values and completions *)

(** Truthiness of a possibly missing string: [undefined], [null] and the empty
    string are falsy. The result keeps the string when it is truthy. *)
Definition truthy (v : option string) : option string :=
  match v with
  | Some s => if (s =? "")%string then None else Some s
  | None => None
  end.

(** [a || b] where [a] is a string or [null] and [b] is a string. *)
Definition or_else (a : option string) (b : string) : string :=
  match truthy a with
  | Some s => s
  | None => b
  end.

(** [Object.is] on values that are a string or [null]. *)
Definition Object_is (a b : option string) : bool :=
  match a, b with
  | Some x, Some y => (x =? y)%string
  | None, None => true
  | _, _ => false
  end.

Inductive Exception : Type :=
| SecurityError
| QuotaExceededError
| NotAllowedError
| TypeError.

Inductive Completion (A : Type) : Type :=
| Normal (a : A)
| Throw (e : Exception).
Arguments Normal {A} a.
Arguments Throw {A} e.

(** A statement over a mutable world [W]: it completes normally or throws, and
    in both cases leaves a world behind. *)
Definition JS (W A : Type) : Type := W -> Completion A * W.

Definition ret {W A : Type} (a : A) : JS W A := fun w => (Normal a, w).

Definition bind {W A B : Type} (m : JS W A) (k : A -> JS W B) : JS W B :=
  fun w =>
    match m w with
    | (Normal a, w') => k a w'
    | (Throw e, w') => (Throw e, w')
    end.

(** [try { body } catch { handler }] (the source's handlers bind no variable). *)
Definition try_catch {W A : Type} (body : JS W A) (handler : JS W A) : JS W A :=
  fun w =>
    match body w with
    | (Normal a, w') => (Normal a, w')
    | (Throw _, w') => handler w'
    end.

(** A statement that cannot throw. *)
Definition modify {W : Type} (f : W -> W) : JS W unit := fun w => (Normal tt, f w).

(** [s1; s2]: run [s2] only when [s1] completed normally. *)
Definition andThen {W A : Type} (s1 : JS W unit) (s2 : JS W A) : JS W A :=
  bind s1 (fun _ => s2).

(** ** Static content *)

Record Accent : Type := { name : string; value : string }.

Definition ACCENTS : list Accent :=
  [ {| name := "Neon"; value := "#7C3AED" |};
    {| name := "Ocean"; value := "#06B6D4" |};
    {| name := "Lime"; value := "#84CC16" |};
    {| name := "Sunset"; value := "#FB7185" |};
    {| name := "Gold"; value := "#F59E0B" |};
    {| name := "Blue"; value := "#3B82F6" |} ].

(** [links] is a plain object used as a map from link kind to URL. *)
Record Project : Type := {
  title : string;
  short : string;
  description : string;
  tags : list string;
  links : gmap string string
}.

Definition PROJECTS : list Project :=
  [ {| title := "Pc Pricer";
       short := "React + Vite";
       description := "PcPricer is a high-performance web application designed to simplify the PC building";
       tags := ["HTML"; "CSS"; "JS"];
       links := <["live" := "https://pc-pricer.vercel.app/"]>
                (<["code" := "https://github.com/IvanSh-dev/pc-pricer"]> ∅) |};
    {| title := "Kinematic Analysis";
       short := "Maths + Physics";
       description := "A desktop application built with Python and Tkinter for calculating and visualizing the velocity vector diagrams of a slider-crank mechanism.";
       tags := ["Python"; "Tkinter"];
       links := <["code" := "https://github.com/IvanSh-dev/kinematic-analysis-python"]> ∅ |};
    {| title := "3D Design projects";
       short := "Low poly + Textures";
       description := "Bringing concepts to life through 3D visualization and lighting.";
       tags := ["Blender"; "Cycles"; "Animation"];
       links := <["artstation" := "https://www.artstation.com/ivsh"]> ∅ |} ].

(** The one field of [PROFILE] that reaches the code embedded here. *)
Module PROFILE.
Definition email : string := "ivansersharg@gmail.com".
End PROFILE.

(** The section ids [App] hands to the scroll-spy hook. *)
Definition sections : list string :=
  ["home"; "about"; "skills"; "projects"; "experience"; "contact"].

(** ** Filter engine: [visibleProjects] and [allTags] *)

(** [xs.includes(x)] on an array of strings. *)
Fixpoint includes (xs : list string) (x : string) : bool :=
  match xs with
  | [] => false
  | y :: ys => (y =? x)%string || includes ys x
  end.

(** The memoised value [visibleProjects], as a function of the project list
    (the constant [PROJECTS] in the page) and of the [filter] state. *)
Definition visibleProjects (all : list Project) (filter : string) : list Project :=
  if (filter =? "All")%string then all
  else List.filter (fun p => includes (tags p) filter) all.

(** A JavaScript [Set] of strings keeps its members in insertion order;
    [s.add(t)] leaves the set alone when [t] is already a member. *)
Definition Set_add (s : list string) (t : string) : list string :=
  if includes s t then s else s ++ [t].

(** The set [s] after [PROJECTS.forEach((p) => p.tags.forEach((t) => s.add(t)))]. *)
Definition tagSet (all : list Project) : list string :=
  fold_left (fun s p => fold_left Set_add (tags p) s) all [].

(** [["All", ...Array.from(s)]]: [Array.from] lists the members in insertion
    order. *)
Definition allTags (all : list Project) : list string := "All" :: tagSet all.

(** ** Modal: the action row *)

(** An [<a>] element of the action row. *)
Record Anchor : Type := { className : string; href : string; label : string }.

Definition galleryAnchor (url : string) : Anchor :=
  {| className := "btn"; href := url; label := "ArtStation ↗" |}.

Definition codeAnchor (url : string) : Anchor :=
  {| className := "btn btn--ghost"; href := url; label := "Code ↗" |}.

Definition liveAnchor (url : string) : Anchor :=
  {| className := "btn"; href := url; label := "Live →" |}.

(** [{cond ? <a .../> : null}]: [null] renders nothing. *)
Definition renderIf (cond : option string) (a : string -> Anchor) : list Anchor :=
  match truthy cond with
  | Some url => [a url]
  | None => []
  end.

(** The children of [<div className="modal__actions">] in [Modal]. *)
Definition Modal_actions (project : Project) : list Anchor :=
  match truthy (links project !! "artstation") with
  | Some url => [galleryAnchor url]
  | None => renderIf (links project !! "code") codeAnchor ++
            renderIf (links project !! "live") liveAnchor
  end.

(** ** Accent preference: [localStorage] and the style variable *)

(** The storage facility. [accessible = false]: reading [window.localStorage]
    throws a [SecurityError] (storage disabled for the page). [full = true]:
    the quota is exhausted and every [setItem] throws a [QuotaExceededError]. *)
Record Storage : Type := {
  accessible : bool;
  full : bool;
  items : gmap string string
}.

(** The part of the browser window the accent code touches: the storage area
    and the custom properties of [document.documentElement.style]. *)
Record Window : Type := {
  localStorage : Storage;
  style : gmap string string
}.

(** [window.localStorage.getItem(key)] *)
Definition getItem (key : string) : JS Window (option string) :=
  fun w =>
    if accessible (localStorage w)
    then (Normal (items (localStorage w) !! key), w)
    else (Throw SecurityError, w).

(** [window.localStorage.setItem(key, v)] *)
Definition setItem (key v : string) : JS Window unit :=
  fun w =>
    let st := localStorage w in
    if negb (accessible st) then (Throw SecurityError, w)
    else if full st then (Throw QuotaExceededError, w)
    else (Normal tt,
          {| localStorage := {| accessible := accessible st; full := full st;
                                items := <[key := v]> (items st) |};
             style := style w |}).

(** [document.documentElement.style.setProperty(prop, v)], for a value the
    declaration accepts, as the colours of the palette and the pointer
    coordinates are. The definition says nothing faithful about the other
    values: for the empty string the call removes the property, and a value
    that does not parse as a property value is ignored. *)
Definition setProperty (prop v : string) : JS Window unit :=
  modify (fun w => {| localStorage := localStorage w;
                      style := <[prop := v]> (style w) |}).

(** [ACCENTS[0].value] *)
Definition ACCENTS_0_value : string :=
  match ACCENTS with
  | a :: _ => value a
  | [] => ""
  end.

(** The initialiser of the [accent] state (the spec's [load]):
    [window.localStorage.getItem("accent") || ACCENTS[0].value]. *)
Definition accentInitializer : JS Window string :=
  bind (getItem "accent") (fun stored => ret (or_else stored ACCENTS_0_value)).

(** The effect that runs when [accent] changes (the spec's [apply] and [save]):
    first the style variable, then the storage write. *)
Definition accentEffect (accent : string) : JS Window unit :=
  andThen (setProperty "--accent" accent) (setItem "accent" accent).

(** ** Toast: the [toast] state of [App] and the timer of [Toast]

    React as far as this code relies on it:
    - a state setter called with a value that is [Object.is]-equal to the
      current one bails out: no render, no effect runs;
    - otherwise [App] renders again, and every render creates a fresh
      [onClose] closure [() => setToast(null)]; closures are identified here
      by the number of the render that created them;
    - [<Toast>] is in the tree exactly while [toast] is truthy; its effect has
      the dependency list [[onClose]]: on mount, and on every update in which
      [onClose] differs from the one the effect last ran with, the previous
      cleanup ([clearTimeout]) runs and the effect runs again
      ([setTimeout(onClose, 1800)]); on unmount the cleanup runs.
    Time is counted in milliseconds. *)

(** The installed effect of [Toast]: the [onClose] it ran with and the time at
    which its pending timeout fires. *)
Record ToastEffect : Type := { dep : nat; fires : nat }.

Record AppState : Type := {
  clock : nat;
  renders : nat;
  toast : option string;
  toastEffect : option ToastEffect
}.

(** The first render of [App]: [useState(null)], no [<Toast>]. *)
Definition App_mount : AppState :=
  {| clock := 0; renders := 1; toast := None; toastEffect := None |}.

(** [setTimeout(onClose, 1800)] at the current time. *)
Definition Toast_effect (onClose : nat) (s : AppState) : ToastEffect :=
  {| dep := onClose; fires := (clock s + 1800)%nat |}.

(** Commit of [{toast ? <Toast text={toast} onClose={...} /> : null}] with the
    [onClose] of the current render. *)
Definition Toast_commit (onClose : nat) (s : AppState) : option ToastEffect :=
  match truthy (toast s) with
  | Some _ =>
      match toastEffect s with
      | Some fx => if (dep fx =? onClose)%nat then Some fx
                   else Some (Toast_effect onClose s)
      | None => Some (Toast_effect onClose s)
      end
  | None => None
  end.

(** One render of [App] and its commit. *)
Definition render (s : AppState) : AppState :=
  let n := S (renders s) in
  {| clock := clock s; renders := n; toast := toast s;
     toastEffect := Toast_commit n s |}.

(** [setToast(v)] *)
Definition setToast (v : option string) (s : AppState) : AppState :=
  if Object_is v (toast s) then s
  else render {| clock := clock s; renders := renders s; toast := v;
                 toastEffect := toastEffect s |}.

(** [onClose], whichever render created it: [() => setToast(null)]. *)
Definition onClose (s : AppState) : AppState := setToast None s.

Definition at_time (t : nat) (s : AppState) : AppState :=
  {| clock := t; renders := renders s; toast := toast s;
     toastEffect := toastEffect s |}.

(** [d] milliseconds pass with no other event: a timeout that falls due in
    that span fires at its own time and calls [onClose]. *)
Definition advance (d : nat) (s : AppState) : AppState :=
  let t := (clock s + d)%nat in
  match toastEffect s with
  | Some fx => if (fires fx <=? t)%nat then at_time t (onClose (at_time (fires fx) s))
               else at_time t s
  | None => at_time t s
  end.

(** What can happen to the toast: a call of [setToast] (with a message by
    [copy] or the contact form, with [null] by the close button), a render of
    [App] caused by another piece of state, and the passing of time. *)
Inductive Event : Type :=
| SetToast (v : option string)
| Rerender
| Elapse (d : nat).

Definition step (s : AppState) (ev : Event) : AppState :=
  match ev with
  | SetToast v => setToast v s
  | Rerender => render s
  | Elapse d => advance d s
  end.

Definition run (evs : list Event) : AppState := fold_left step evs App_mount.

(** The message on screen, if any: the [text] of the mounted [<Toast>]. *)
Definition visible (s : AppState) : option string := truthy (toast s).

(** ** Clipboard copy *)

Inductive Settled : Type :=
| Fulfilled
| Rejected (reason : Exception).

(** [navigator.clipboard] is [undefined] outside secure contexts; when it is
    there, [writeText] returns a promise that settles one way or the other. *)
Record Navigator : Type := { clipboard : option (string -> Settled) }.

(** [await navigator.clipboard.writeText(text)]: reading [writeText] off
    [undefined] throws a [TypeError]; awaiting a rejected promise throws its
    reason. *)
Definition writeText (navigator : Navigator) (text : string) : JS AppState unit :=
  fun s =>
    match clipboard navigator with
    | None => (Throw TypeError, s)
    | Some write =>
        match write text with
        | Fulfilled => (Normal tt, s)
        | Rejected reason => (Throw reason, s)
        end
    end.

(** [copy(text, label)]; the state it runs in is the one at the time the
    promise settles. *)
Definition copy (navigator : Navigator) (text label : string) : JS AppState unit :=
  try_catch
    (andThen (writeText navigator text)
             (modify (setToast (Some (label +:+ " copied")))))
    (modify (setToast (Some "Copy failed"))).

(** ** Scroll-spy *)

Record Element : Type := { id : string }.

(** [document.getElementById(i)]: the first element in tree order with that
    id; no element has the empty id. *)
Definition getElementById (document : list Element) (i : string) : option Element :=
  if (i =? "")%string then None
  else find (fun el => (id el =? i)%string) document.

Record IntersectionObserverEntry : Type := {
  isIntersecting : bool;
  intersectionRatio : option Q;
  target : option Element
}.

(** [e.intersectionRatio ?? 0]. A ratio is a double between 0 and 1; every
    such double is a rational number, and the difference of two doubles has
    the sign of their exact difference, which is all [sort] looks at. *)
Definition ratio (e : IntersectionObserverEntry) : Q :=
  match intersectionRatio e with
  | Some r => r
  | None => 0
  end.

(** The comparator handed to [sort]. *)
Definition compareFn (a b : IntersectionObserverEntry) : Q := ratio b - ratio a.

(** [Array.prototype.sort] is stable: an element moves behind another one only
    when the comparator is positive on the pair. *)
Fixpoint sort_insert {A : Type} (cmp : A -> A -> Q) (x : A) (l : list A) : list A :=
  match l with
  | [] => [x]
  | y :: r => if Qle_bool (cmp x y) 0 then x :: y :: r
              else y :: sort_insert cmp x r
  end.

Definition sort {A : Type} (cmp : A -> A -> Q) (l : list A) : list A :=
  fold_right (sort_insert cmp) [] l.

(** [ids[0] ?? "home"] *)
Definition initialActive (ids : list string) : string :=
  match ids with
  | i :: _ => i
  | [] => "home"
  end.

(** [ids.map((id) => document.getElementById(id)).filter(Boolean)] *)
Definition els (document : list Element) (ids : list string) : list Element :=
  flat_map (fun i => match getElementById document i with
                     | Some el => [el]
                     | None => []
                     end) ids.

(** The observer callback, as a function of the batch and of the [active]
    state it may replace. *)
Definition onIntersect (entries : list IntersectionObserverEntry) (active : string) : string :=
  let v := sort compareFn (List.filter isIntersecting entries) in
  match v with
  | e :: _ =>
      match target e with
      | Some el => match truthy (Some (id el)) with
                   | Some i => i
                   | None => active
                   end
      | None => active
      end
  | [] => active
  end.

(** The value [useScrollSpy(ids)] returns after the given batches. *)
Definition useScrollSpy (ids : list string) (batches : list (list IntersectionObserverEntry)) : string :=
  fold_left (fun active entries => onIntersect entries active) batches (initialActive ids).

(** A batch the observer can deliver: every entry is about an element that was
    handed to [obs.observe]. *)
Definition delivered (document : list Element) (ids : list string)
    (entries : list IntersectionObserverEntry) : Prop :=
  Forall (fun e => exists el, target e = Some el /\ In el (els document ids)) entries.

(** * Specification-side notions *)

(** [Selected t all res]: [res] is the subsequence of [all] made of the
    projects that carry the tag [t], in their original order. *)
Inductive Selected (t : string) : list Project -> list Project -> Prop :=
| Selected_nil : Selected t [] []
| Selected_keep p all res :
    In t (tags p) -> Selected t all res -> Selected t (p :: all) (p :: res)
| Selected_drop p all res :
    ~ In t (tags p) -> Selected t all res -> Selected t (p :: all) res.

(** The distinct members of a list of strings, each at the place where it
    first occurs. *)
Fixpoint first_seen (l : list string) : list string :=
  match l with
  | [] => []
  | x :: r => x :: List.filter (fun y => negb (y =? x)%string) (first_seen r)
  end.

(** A project exposes a link of some kind when its [links] object holds a
    non-empty URL under that key; the markup tests the value for truthiness,
    so a missing key and an empty URL are the same to it. *)
Definition exposes (project : Project) (kind url : string) : Prop :=
  links project !! kind = Some url /\ url <> "".

Definition lacks (project : Project) (kind : string) : Prop :=
  forall url, ~ exposes project kind url.

(** The window with one of its parts replaced. *)
Definition with_style (w : Window) (st : gmap string string) : Window :=
  {| localStorage := localStorage w; style := st |}.

(** Failure containment as the specification words it: [load] yields the
    palette default and [save] completes without touching the storage. *)
Definition storage_failure_contained (w : Window) (a : string) : Prop :=
  fst (accentInitializer w) = Normal ACCENTS_0_value /\
  fst (accentEffect a w) = Normal tt /\
  localStorage (snd (accentEffect a w)) = localStorage w.

(** Pass-through as the specification words it: whatever string is stored
    under ["accent"] is what [load] returns. *)
Definition load_passes_through (w : Window) (v : string) : Prop :=
  items (localStorage w) !! "accent" = Some v ->
  fst (accentInitializer w) = Normal v.

(** A window whose storage is disabled, one whose storage is out of quota,
    and one whose storage holds the empty string as the accent. *)
Definition disabledWindow : Window :=
  {| localStorage := {| accessible := false; full := false; items := ∅ |};
     style := ∅ |}.

Definition fullWindow : Window :=
  {| localStorage := {| accessible := true; full := true; items := ∅ |};
     style := ∅ |}.

Definition emptyAccentWindow : Window :=
  {| localStorage := {| accessible := true; full := false;
                        items := <["accent" := ""]> ∅ |};
     style := ∅ |}.

(** What holds of the toast state between events: a timer is pending exactly
    while a message is on screen, it was set by a render that has happened,
    and it has not fallen due yet. *)
Definition pending_ok (s : AppState) : Prop :=
  forall fx, toastEffect s = Some fx ->
    (dep fx <= renders s)%nat /\ (clock s < fires fx)%nat.

Definition consistent (s : AppState) : Prop :=
  pending_ok s /\ (toastEffect s = None <-> visible s = None).

(** Timer restart as the specification words it: after [show(m2)] the message
    [m2] is on screen and stays there for the whole dismissal window counted
    from that call. *)
Definition show_restarts_timer (s : AppState) (m2 : string) : Prop :=
  let s' := setToast (Some m2) s in
  visible s' = Some m2 /\
  forall d, (d < 1800)%nat -> visible (advance d s') = Some m2.

(** [highest entries e]: [e] is an intersecting entry of the batch, and no
    intersecting entry of the batch has a larger ratio. *)
Definition highest (entries : list IntersectionObserverEntry)
    (e : IntersectionObserverEntry) : Prop :=
  In e entries /\ isIntersecting e = true /\
  forall e', In e' entries -> isIntersecting e' = true -> (ratio e' <= ratio e)%Q.

Definition none_intersecting (entries : list IntersectionObserverEntry) : Prop :=
  forall e, In e entries -> isIntersecting e = false.

(** Ratios in descending order. *)
Definition descending (l : list IntersectionObserverEntry) : Prop :=
  StronglySorted (fun a b => (ratio b <= ratio a)%Q) l.

(** The page as [App] lays it out: one element per section id. *)
Definition page : list Element := map (fun i => {| id := i |}) sections.

Definition entry (intersecting : bool) (r : Q) (i : string) : IntersectionObserverEntry :=
  {| isIntersecting := intersecting; intersectionRatio := Some r;
     target := Some {| id := i |} |}.

(** Three batches as a visitor scrolling down the page produces them. *)
Definition scrollDown : list (list IntersectionObserverEntry) :=
  [ [entry true (3 # 10) "about"; entry false 0 "home"];
    [entry false (1 # 10) "about"];
    [entry true (3 # 20) "skills"; entry true (1 # 2) "projects"] ].

(** ["Email copied"] was shown when the page had just been mounted, and one
    second has passed. *)
Definition emailCopiedShown : AppState :=
  run [SetToast (Some "Email copied"); Elapse 1000].

(** [first_highest l e]: [e] occurs in [l], everything before that occurrence
    has a strictly smaller ratio, and nothing after it has a larger one. *)
Definition first_highest (l : list IntersectionObserverEntry)
    (e : IntersectionObserverEntry) : Prop :=
  exists l1 l2, l = l1 ++ e :: l2 /\
    Forall (fun a => (ratio a < ratio e)%Q) l1 /\
    Forall (fun b => (ratio b <= ratio e)%Q) l2.

(** A project with all three links, and one whose live link is the empty
    string. *)
Definition allLinks : Project :=
  {| title := "Shots"; short := ""; description := ""; tags := ["Blender"];
     links := <["artstation" := "https://www.artstation.com/ivsh"]>
              (<["code" := "https://github.com/IvanSh-dev"]>
               (<["live" := "https://pc-pricer.vercel.app/"]> ∅)) |}.

Definition codeOnly : Project :=
  {| title := "Tool"; short := ""; description := ""; tags := ["Python"];
     links := <["code" := "https://github.com/IvanSh-dev"]> (<["live" := ""]> ∅) |}.

(** * More of the page *)

(** ** Class names *)

(** [cond && s] for a boolean [cond] and a string [s]: [false] or [s]. *)
Definition and_then (cond : bool) (s : string) : option string :=
  if cond then Some s else None.

(** [xs.filter(Boolean)] on values that are a string or [false]. *)
Definition filter_Boolean (xs : list (option string)) : list string :=
  flat_map (fun x => match truthy x with
                     | Some s => [s]
                     | None => []
                     end) xs.

(** [cn(...xs)]: [xs.filter(Boolean).join(" ")]. *)
Definition cn (xs : list (option string)) : string :=
  String.concat " " (filter_Boolean xs).

(** The [className] of a button of the top navigation, of the mobile
    navigation, of the tag bar and of the accent picker. *)
Definition navClassName (active i : string) : string :=
  cn [Some "nav__item"; and_then (active =? i)%string "nav__item--active"].

Definition mobileNavClassName (active i : string) : string :=
  cn [Some "mobileNav__item"; and_then (active =? i)%string "mobileNav__item--active"].

Definition tagClassName (filter t : string) : string :=
  cn [Some "tag"; and_then (filter =? t)%string "tag--on"].

Definition accentDotClassName (accent : string) (c : Accent) : string :=
  cn [Some "accentDot"; and_then (accent =? value c)%string "accentDot--on"].

(** ** Navigation labels and scrolling *)

(** [s[0]], [s.slice(1)] and [s.slice(0, 1)] on code units. *)
Definition charAt0 (s : string) : option string :=
  match s with
  | EmptyString => None
  | String c _ => Some (String c EmptyString)
  end.

Definition slice_1 (s : string) : string :=
  match s with
  | EmptyString => EmptyString
  | String _ rest => rest
  end.

Definition slice_0_1 (s : string) : string :=
  match s with
  | EmptyString => EmptyString
  | String c _ => String c EmptyString
  end.

(** The labels are stated over any [String.prototype.toUpperCase]. *)
Section Labels.
Variable toUpperCase : string -> string.

(** [id === "home" ? "Home" : id[0].toUpperCase() + id.slice(1)]: calling a
    method on [undefined] throws a [TypeError]. *)
Definition navLabel (i : string) : Completion string :=
  if (i =? "home")%string then Normal "Home"
  else match charAt0 i with
       | Some c => Normal (toUpperCase c +:+ slice_1 i)
       | None => Throw TypeError
       end.

(** [id === "home" ? "Home" : id.slice(0, 1).toUpperCase()] *)
Definition mobileNavLabel (i : string) : string :=
  if (i =? "home")%string then "Home" else toUpperCase (slice_0_1 i).

End Labels.

(** The one call [scrollToId] may make:
    [el.scrollIntoView({ behavior: "smooth", block: "start" })]. *)
Record ScrollIntoView : Type := {
  scrolled : Element;
  behavior : string;
  block : string
}.

(** [scrollToId(id)]: [None] is the early [return]. *)
Definition scrollToId (document : list Element) (i : string) : option ScrollIntoView :=
  match getElementById document i with
  | None => None
  | Some el => Some {| scrolled := el; behavior := "smooth"; block := "start" |}
  end.

(** ** The accent state of [App] *)

(** Mounting [App]: the initialiser gives the [accent] state, then the effect
    runs with it. The result is the state. *)
Definition App_accent_mount : JS Window string :=
  bind accentInitializer (fun accent => andThen (accentEffect accent) (ret accent)).

(** [setAccent(v)] while the state is [accent]: an equal value changes
    nothing; another one becomes the state and the effect runs with it. *)
Definition setAccent (v accent : string) : JS Window string :=
  if Object_is (Some v) (Some accent) then ret accent
  else andThen (accentEffect v) (ret v).

(** A sequence of clicks on the accent picker, each calling [setAccent] with
    the value of a swatch. *)
Fixpoint pickAccents (vs : list string) (accent : string) : JS Window string :=
  match vs with
  | [] => ret accent
  | v :: rest => bind (setAccent v accent) (pickAccents rest)
  end.

(** ** Pointer tracker *)

(** Coordinates are numbers; how a number prints in a template literal is left
    open. *)
Section Pointer.
Variable Number : Type.
Variable toString : Number -> string.

Record MouseEvent : Type := { clientX : Number; clientY : Number }.

(** [onMove]: the two [setProperty] calls. *)
Definition onMove (e : MouseEvent) : JS Window unit :=
  andThen (setProperty "--mx" (toString (clientX e) +:+ "px"))
          (setProperty "--my" (toString (clientY e) +:+ "px")).

(** The listener called once per [mousemove] event, in order. *)
Fixpoint onMoves (es : list MouseEvent) : JS Window unit :=
  match es with
  | [] => ret tt
  | e :: rest => andThen (onMove e) (onMoves rest)
  end.

End Pointer.
Arguments clientX {Number} _.
Arguments clientY {Number} _.
Arguments onMove {Number} toString e _.
Arguments onMoves {Number} toString es _.

(** ** Contact form *)

(** The [onSubmit] handler, after [e.preventDefault()]. *)
Definition onSubmit (s : AppState) : AppState := setToast (Some "Message sent") s.

(** ** Modal: opening, closing and the key listener

    The open project is a reference to one of the objects of [PROJECTS]; a
    reference is the position of the object in that array, and [Object.is] on
    references compares positions. [<Modal>] is in the tree exactly while
    [openProject] is not [null]. Its effect has the dependency list
    [[onClose]], and [App] creates a new [onClose] on every render. The
    listener the effect adds to [window] is a closure created by that run of
    the effect; it is identified by the number of the render. *)
Record ModalState : Type := {
  openProject : option nat;
  modalRenders : nat;
  modalEffect : option nat;
  keydownListeners : list nat
}.

Definition Modal_mount : ModalState :=
  {| openProject := None; modalRenders := 1; modalEffect := None;
     keydownListeners := [] |}.

(** [window.removeEventListener("keydown", onKey)] *)
Definition removeEventListener (l : nat) (ls : list nat) : list nat :=
  List.filter (fun k => negb (k =? l)%nat) ls.

(** [window.addEventListener("keydown", onKey)]: a listener that is already
    registered is not added again. *)
Definition addEventListener (l : nat) (ls : list nat) : list nat :=
  if existsb (Nat.eqb l) ls then ls else ls ++ [l].

(** Commit of [{openProject ? <Modal ... onClose={...} /> : null}] with the
    [onClose] of the current render: the installed effect and the listeners
    of [window] afterwards. *)
Definition Modal_commit (onClose : nat) (s : ModalState) : option nat * list nat :=
  match openProject s with
  | Some _ =>
      match modalEffect s with
      | Some d =>
          if (d =? onClose)%nat then (Some d, keydownListeners s)
          else (Some onClose,
                addEventListener onClose (removeEventListener d (keydownListeners s)))
      | None => (Some onClose, addEventListener onClose (keydownListeners s))
      end
  | None =>
      match modalEffect s with
      | Some d => (None, removeEventListener d (keydownListeners s))
      | None => (None, keydownListeners s)
      end
  end.

Definition Modal_render (s : ModalState) : ModalState :=
  let n := S (modalRenders s) in
  {| openProject := openProject s; modalRenders := n;
     modalEffect := fst (Modal_commit n s);
     keydownListeners := snd (Modal_commit n s) |}.

Definition Object_is_ref (a b : option nat) : bool :=
  match a, b with
  | Some x, Some y => (x =? y)%nat
  | None, None => true
  | _, _ => false
  end.

(** [setOpenProject(v)] *)
Definition setOpenProject (v : option nat) (s : ModalState) : ModalState :=
  if Object_is_ref v (openProject s) then s
  else Modal_render {| openProject := v; modalRenders := modalRenders s;
                       modalEffect := modalEffect s;
                       keydownListeners := keydownListeners s |}.

(** [onClose] of [Modal]: [() => setOpenProject(null)]. *)
Definition Modal_onClose (s : ModalState) : ModalState := setOpenProject None s.

(** [onKey], whichever run of the effect created it. *)
Definition onKey (key : string) (s : ModalState) : ModalState :=
  if (key =? "Escape")%string then Modal_onClose s else s.

(** A [keydown] event on [window]: the listeners registered when the event is
    dispatched are called in order. *)
Definition keydown (key : string) (s : ModalState) : ModalState :=
  fold_left (fun s' _ => onKey key s') (keydownListeners s) s.

(** Where a [mousedown] lands while the modal is shown. *)
Inductive ModalTarget : Type :=
| Backdrop
| Card.

(** A handler of the bubbling phase: the state it leaves, and whether it
    called [e.stopPropagation()]. *)
Definition Handler : Type := ModalState -> ModalState * bool.

(** [onMouseDown={onClose}] on the backdrop, and
    [onMouseDown={(e) => e.stopPropagation()}] on the card. *)
Definition backdrop_onMouseDown : Handler := fun s => (Modal_onClose s, false).
Definition card_onMouseDown : Handler := fun s => (s, true).

(** The handlers from the target up to the root. *)
Definition mousedown_path (target : ModalTarget) : list Handler :=
  match target with
  | Backdrop => [backdrop_onMouseDown]
  | Card => [card_onMouseDown; backdrop_onMouseDown]
  end.

Fixpoint bubble (path : list Handler) (s : ModalState) : ModalState :=
  match path with
  | [] => s
  | h :: rest => let (s', stopped) := h s in
                 if stopped then s' else bubble rest s'
  end.

(** A [mousedown]: there is something of the modal to press only while it is
    shown. *)
Definition mousedown (target : ModalTarget) (s : ModalState) : ModalState :=
  match openProject s with
  | Some _ => bubble (mousedown_path target) s
  | None => s
  end.

Inductive ModalEvent : Type :=
| ClickCard (p : nat)
| KeyDown (key : string)
| MouseDown (target : ModalTarget)
| ClickClose
| AppRerender.

Definition Modal_step (s : ModalState) (ev : ModalEvent) : ModalState :=
  match ev with
  | ClickCard p => setOpenProject (Some p) s
  | KeyDown key => keydown key s
  | MouseDown target => mousedown target s
  | ClickClose => match openProject s with
                  | Some _ => Modal_onClose s
                  | None => s
                  end
  | AppRerender => Modal_render s
  end.

Definition Modal_run (evs : list ModalEvent) : ModalState :=
  fold_left Modal_step evs Modal_mount.

(** * Notions used by the further properties *)

(** The accent state, the stored accent and the style variable agree. *)
Definition in_step (accent : string) (w : Window) : Prop :=
  items (localStorage w) !! "accent" = Some accent /\
  style w !! "--accent" = Some accent.

(** A storage that accepts reads and writes. *)
Definition working (w : Window) : Prop :=
  accessible (localStorage w) = true /\ full (localStorage w) = false.

(** The timer of a message on screen is never further away than the
    dismissal delay. *)
Definition deadline_near (s : AppState) : Prop :=
  forall fx, toastEffect s = Some fx -> (fires fx <= clock s + 1800)%nat.

(** One listener while the modal is shown, none otherwise. *)
Definition listener_matches (s : ModalState) : Prop :=
  match openProject s with
  | Some _ => exists d, modalEffect s = Some d /\ keydownListeners s = [d] /\
                        (d <= modalRenders s)%nat
  | None => modalEffect s = None /\ keydownListeners s = []
  end.

(** The same, for a state between [setOpenProject] and the render it causes:
    the installed effect and the registered listeners belong together. *)
Definition effect_matches (s : ModalState) : Prop :=
  match modalEffect s with
  | Some d => keydownListeners s = [d] /\ (d <= modalRenders s)%nat
  | None => keydownListeners s = []
  end.

(** An uppercase function for the examples: ASCII letters only. *)
Fixpoint asciiUpper (s : string) : string :=
  match s with
  | EmptyString => EmptyString
  | String c rest =>
      let n := nat_of_ascii c in
      String (if ((97 <=? n) && (n <=? 122))%nat then ascii_of_nat (n - 32) else c)
             (asciiUpper rest)
  end.

(** * Filter engine: proofs *)

Lemma includes_In (xs : list string) (x : string) :
  includes xs x = true <-> In x xs.
Proof.
  induction xs as [|y ys IH]; simpl.
  - split; [discriminate | tauto].
  - rewrite orb_true_iff, IH, String.eqb_eq. tauto.
Qed.

Lemma includes_not_In (xs : list string) (x : string) :
  includes xs x = false <-> ~ In x xs.
Proof.
  rewrite <- includes_In. destruct (includes xs x); split; congruence.
Qed.

Lemma includes_app (xs ys : list string) (x : string) :
  includes (xs ++ ys) x = includes xs x || includes ys x.
Proof.
  induction xs as [|y xs IH]; simpl; [reflexivity|].
  rewrite IH. apply orb_assoc.
Qed.

(** Membership is decided by exact comparison: letter case matters. *)
Example includes_case_sensitive :
  includes ["HTML"; "CSS"; "JS"] "css" = false /\
  includes ["HTML"; "CSS"; "JS"] "CSS" = true.
Proof. split; reflexivity. Qed.

Lemma Selected_filter (t : string) (all : list Project) :
  Selected t all (List.filter (fun p => includes (tags p) t) all).
Proof.
  induction all as [|p all IH]; simpl.
  - constructor.
  - destruct (includes (tags p) t) eqn:E.
    + apply Selected_keep; [now apply includes_In | exact IH].
    + apply Selected_drop; [now apply includes_not_In | exact IH].
Qed.

Lemma Selected_unique (t : string) (all r1 r2 : list Project) :
  Selected t all r1 -> Selected t all r2 -> r1 = r2.
Proof.
  intros H1. revert r2.
  induction H1 as [|p all res Hin _ IH|p all res Hnin _ IH]; intros r2 H2;
    inversion H2; subst; try contradiction; auto.
  f_equal. auto.
Qed.

(** C2. [visibleProjects all "All"] is [all] itself; for a tag [t] other than
    the sentinel ["All"], a list is the order-preserving subsequence of [all]
    whose projects carry [t] exactly when it is [visibleProjects all t].
    Membership of a tag is exact string equality. *)
Theorem visibleProjects_contract (all : list Project) :
  visibleProjects all "All" = all /\
  forall t : string, t <> "All" ->
    forall res : list Project, Selected t all res <-> res = visibleProjects all t.
Proof.
  split; [reflexivity|].
  intros t Ht res. unfold visibleProjects.
  destruct (String.eqb_spec t "All") as [->|_]; [contradiction|].
  split.
  - intros H. eapply Selected_unique; [exact H | apply Selected_filter].
  - intros ->. apply Selected_filter.
Qed.

(** The sentinel wins over a tag of the same spelling. *)
Example visibleProjects_sentinel_tag :
  let tagged := {| title := "a"; short := ""; description := ""; tags := ["All"]; links := ∅ |} in
  let other := {| title := "b"; short := ""; description := ""; tags := ["JS"]; links := ∅ |} in
  visibleProjects [tagged; other] "All" = [tagged; other].
Proof. reflexivity. Qed.

Lemma visibleProjects_contract_witness :
  "CSS" <> "All" /\
  Selected "CSS" PROJECTS (visibleProjects PROJECTS "CSS") /\
  map title (visibleProjects PROJECTS "CSS") = ["Pc Pricer"].
Proof.
  assert (H : "CSS" <> "All") by discriminate.
  split; [exact H|]. split; [|reflexivity].
  apply (proj2 (visibleProjects_contract PROJECTS) "CSS" H). reflexivity.
Defined.

(** ** The tag vocabulary *)

Lemma tagSet_flat (all : list Project) (acc : list string) :
  fold_left (fun s p => fold_left Set_add (tags p) s) all acc =
  fold_left Set_add (flat_map tags all) acc.
Proof.
  revert acc. induction all as [|p all IH]; intros acc; simpl; [reflexivity|].
  now rewrite fold_left_app, IH.
Qed.

Lemma Set_add_In (s : list string) (x t : string) :
  In t (Set_add s x) <-> In t s \/ t = x.
Proof.
  unfold Set_add. destruct (includes s x) eqn:E.
  - apply includes_In in E. split; [tauto|]. intros [H| ->]; assumption.
  - rewrite in_app_iff. simpl. intuition congruence.
Qed.

Lemma NoDup_snoc (s : list string) (x : string) :
  ~ In x s -> List.NoDup s -> List.NoDup (s ++ [x]).
Proof.
  intros Hx H. induction H as [|y s Hy H IH]; simpl.
  - constructor; [intros [] | constructor].
  - constructor.
    + rewrite in_app_iff. simpl. intros [?|[E|[]]]; [contradiction|].
      apply Hx. left. now symmetry.
    + apply IH. intros ?. apply Hx. now right.
Qed.

Lemma Set_add_NoDup (s : list string) (x : string) :
  List.NoDup s -> List.NoDup (Set_add s x).
Proof.
  intros H. unfold Set_add. destruct (includes s x) eqn:E; [exact H|].
  apply includes_not_In in E. now apply NoDup_snoc.
Qed.

Lemma Set_add_extends (s : list string) (x : string) :
  exists r, Set_add s x = (s ++ r)%list.
Proof.
  unfold Set_add. destruct (includes s x).
  - exists []. now rewrite app_nil_r.
  - now exists [x].
Qed.

Lemma fold_Set_add_In (l acc : list string) (t : string) :
  In t (fold_left Set_add l acc) <-> In t acc \/ In t l.
Proof.
  revert acc. induction l as [|x l IH]; intros acc; simpl; [tauto|].
  rewrite IH, Set_add_In. intuition congruence.
Qed.

Lemma fold_Set_add_NoDup (l acc : list string) :
  List.NoDup acc -> List.NoDup (fold_left Set_add l acc).
Proof.
  revert acc. induction l as [|x l IH]; intros acc H; simpl; [exact H|].
  apply IH, Set_add_NoDup, H.
Qed.

Lemma fold_Set_add_extends (l acc : list string) :
  exists r, fold_left Set_add l acc = (acc ++ r)%list.
Proof.
  revert acc. induction l as [|x l IH]; intros acc; simpl.
  - exists []. now rewrite app_nil_r.
  - destruct (Set_add_extends acc x) as [r1 ->].
    destruct (IH (acc ++ r1)) as [r2 ->].
    exists (r1 ++ r2). now rewrite app_assoc.
Qed.

Lemma filter_filter_ext {A : Type} (f g h : A -> bool) (l : list A) :
  (forall x, h x = f x && g x) ->
  List.filter f (List.filter g l) = List.filter h l.
Proof.
  intros E. induction l as [|x l IH]; simpl; [reflexivity|].
  rewrite E. destruct (g x); simpl.
  - rewrite andb_true_r. destruct (f x); now rewrite IH.
  - now rewrite andb_false_r.
Qed.

Lemma filter_all {A : Type} (l : list A) : List.filter (fun _ => true) l = l.
Proof. induction l; simpl; congruence. Qed.

(** The loop over [s.add] computes the first occurrences: what it appends to a
    set [acc] are the first occurrences that are not in [acc] yet. *)
Lemma fold_Set_add_first_seen (l acc : list string) :
  fold_left Set_add l acc =
  (acc ++ List.filter (fun y => negb (includes acc y)) (first_seen l))%list.
Proof.
  revert acc. induction l as [|x l IH]; intros acc; simpl.
  - now rewrite app_nil_r.
  - rewrite IH. unfold Set_add. destruct (includes acc x) eqn:E; simpl.
    + f_equal. symmetry. apply filter_filter_ext. intros y.
      destruct (String.eqb_spec y x) as [->|_]; simpl.
      * now rewrite E.
      * now rewrite andb_true_r.
    + rewrite <- app_assoc. simpl. do 2 f_equal.
      symmetry. apply filter_filter_ext. intros y.
      rewrite includes_app. simpl. rewrite orb_false_r, negb_orb.
      now rewrite (String.eqb_sym x y).
Qed.

(** C3. The vocabulary starts with ["All"]; what follows has no repetition,
    holds exactly the tags that occur in some project, and lists them in the
    order of their first occurrence in the projects' tag lists read one after
    the other: it is [first_seen] of that sequence, and the tags met in any
    initial part of the sequence fill an initial part of the vocabulary.
    Two tags are the same when they are equal as strings. *)
Theorem allTags_contract (all : list Project) :
  hd_error (allTags all) = Some "All" /\
  let rest := tl (allTags all) in
  List.NoDup rest /\
  (forall t : string, In t rest <-> exists p, In p all /\ In t (tags p)) /\
  rest = first_seen (flat_map tags all) /\
  (forall pre post : list string, flat_map tags all = (pre ++ post)%list ->
     exists r1 r2, rest = (r1 ++ r2)%list /\ forall t, In t r1 <-> In t pre).
Proof.
  split; [reflexivity|]. simpl. unfold tagSet. rewrite tagSet_flat.
  split; [|split; [|split]].
  - apply fold_Set_add_NoDup. constructor.
  - intros t. rewrite fold_Set_add_In, in_flat_map. simpl. tauto.
  - rewrite fold_Set_add_first_seen. simpl. now rewrite filter_all.
  - intros pre post ->. rewrite fold_left_app.
    destruct (fold_Set_add_extends post (fold_left Set_add pre [])) as [r2 ->].
    exists (fold_left Set_add pre []), r2. split; [reflexivity|].
    intros t. rewrite fold_Set_add_In. simpl. tauto.
Qed.

Lemma allTags_contract_witness :
  flat_map tags PROJECTS = (["HTML"; "CSS"; "JS"; "Python"] ++ ["Tkinter"; "Blender"; "Cycles"; "Animation"])%list /\
  exists r1 r2, tl (allTags PROJECTS) = (r1 ++ r2)%list /\
                forall t, In t r1 <-> In t ["HTML"; "CSS"; "JS"; "Python"].
Proof.
  assert (H : flat_map tags PROJECTS =
              (["HTML"; "CSS"; "JS"; "Python"] ++ ["Tkinter"; "Blender"; "Cycles"; "Animation"])%list)
    by reflexivity.
  split; [exact H|].
  exact (proj2 (proj2 (proj2 (proj2 (allTags_contract PROJECTS)))) _ _ H).
Defined.

Example allTags_PROJECTS :
  allTags PROJECTS =
  ["All"; "HTML"; "CSS"; "JS"; "Python"; "Tkinter"; "Blender"; "Cycles"; "Animation"].
Proof. reflexivity. Qed.

Example allTags_repeated_tags :
  allTags [ {| title := "a"; short := ""; description := ""; tags := ["JS"; "js"; "JS"]; links := ∅ |};
            {| title := "b"; short := ""; description := ""; tags := ["CSS"; "js"]; links := ∅ |} ]
  = ["All"; "JS"; "js"; "CSS"].
Proof. reflexivity. Qed.

(** * Modal: proofs *)

Lemma truthy_Some (v : option string) (u : string) :
  truthy v = Some u <-> v = Some u /\ u <> "".
Proof.
  unfold truthy. destruct v as [s|]; [|split; [discriminate | intros [? _]; discriminate]].
  destruct (String.eqb_spec s "") as [->|Hne]; split.
  - discriminate.
  - intros [[= ->] H]. contradiction.
  - intros [= ->]. auto.
  - intros [[= ->] _]. reflexivity.
Qed.

Lemma truthy_None (v : option string) :
  truthy v = None <-> forall u, ~ (v = Some u /\ u <> "").
Proof.
  split.
  - intros H u Hu. apply truthy_Some in Hu. congruence.
  - intros H. destruct (truthy v) as [u|] eqn:E; [|reflexivity].
    apply truthy_Some in E. now apply H in E.
Qed.

Lemma renderIf_exposes (project : Project) (kind url : string) (a : string -> Anchor) :
  exposes project kind url -> renderIf (links project !! kind) a = [a url].
Proof.
  intros H. unfold renderIf. apply truthy_Some in H. now rewrite H.
Qed.

Lemma renderIf_lacks (project : Project) (kind : string) (a : string -> Anchor) :
  lacks project kind -> renderIf (links project !! kind) a = [].
Proof.
  intros H. unfold renderIf. apply truthy_None in H. now rewrite H.
Qed.

(** C7. A project that exposes a gallery (ArtStation) link gets one action and
    nothing else, whatever its code and live links are: the anchor labelled
    ["ArtStation ↗"] that leads to the gallery URL. A project without a
    gallery link gets the anchor labelled ["Code ↗"] that leads to its code
    URL if it exposes a code link, followed by the anchor labelled ["Live →"]
    that leads to its live URL if it exposes a live link; a link it does not
    expose gives no anchor. *)
Theorem Modal_actions_policy (project : Project) :
  (forall g, exposes project "artstation" g ->
     Modal_actions project =
     [ {| className := "btn"; href := g; label := "ArtStation ↗" |} ]) /\
  (lacks project "artstation" ->
     (forall c l, exposes project "code" c -> exposes project "live" l ->
        Modal_actions project =
        [ {| className := "btn btn--ghost"; href := c; label := "Code ↗" |};
          {| className := "btn"; href := l; label := "Live →" |} ]) /\
     (forall c, exposes project "code" c -> lacks project "live" ->
        Modal_actions project =
        [ {| className := "btn btn--ghost"; href := c; label := "Code ↗" |} ]) /\
     (forall l, lacks project "code" -> exposes project "live" l ->
        Modal_actions project =
        [ {| className := "btn"; href := l; label := "Live →" |} ]) /\
     (lacks project "code" -> lacks project "live" ->
        Modal_actions project = [])).
Proof.
  unfold Modal_actions. split.
  - intros g Hg. apply truthy_Some in Hg. now rewrite Hg.
  - intros Hg. apply truthy_None in Hg. rewrite Hg.
    repeat split; intros;
      repeat match goal with
        | H : exposes _ _ _ |- _ => rewrite (renderIf_exposes _ _ _ _ H); clear H
        | H : lacks _ _ |- _ => rewrite (renderIf_lacks _ _ _ H); clear H
        end; reflexivity.
Qed.

Lemma Modal_actions_policy_witness :
  exposes allLinks "artstation" "https://www.artstation.com/ivsh" /\
  exposes allLinks "code" "https://github.com/IvanSh-dev" /\
  exposes allLinks "live" "https://pc-pricer.vercel.app/" /\
  Modal_actions allLinks =
    [ {| className := "btn"; href := "https://www.artstation.com/ivsh";
         label := "ArtStation ↗" |} ] /\
  lacks codeOnly "artstation" /\
  exposes codeOnly "code" "https://github.com/IvanSh-dev" /\
  lacks codeOnly "live" /\
  Modal_actions codeOnly =
    [ {| className := "btn btn--ghost"; href := "https://github.com/IvanSh-dev";
         label := "Code ↗" |} ].
Proof.
  assert (Hg : exposes allLinks "artstation" "https://www.artstation.com/ivsh")
    by (split; [reflexivity | discriminate]).
  assert (Hng : lacks codeOnly "artstation")
    by (intros url [H _]; vm_compute in H; discriminate).
  assert (Hc : exposes codeOnly "code" "https://github.com/IvanSh-dev")
    by (split; [reflexivity | discriminate]).
  assert (Hnl : lacks codeOnly "live").
  { intros url [H Hne]. vm_compute in H. injection H as <-. now apply Hne. }
  split; [exact Hg|].
  split; [split; [reflexivity | discriminate]|].
  split; [split; [reflexivity | discriminate]|].
  split; [exact (proj1 (Modal_actions_policy allLinks) _ Hg)|].
  split; [exact Hng|]. split; [exact Hc|]. split; [exact Hnl|].
  exact (proj1 (proj2 (proj2 (Modal_actions_policy codeOnly) Hng)) _ Hc Hnl).
Defined.

(** The action rows of the three projects of the page. *)
Example Modal_actions_PROJECTS :
  map Modal_actions PROJECTS =
  [ [ {| className := "btn btn--ghost";
         href := "https://github.com/IvanSh-dev/pc-pricer"; label := "Code ↗" |};
      {| className := "btn"; href := "https://pc-pricer.vercel.app/";
         label := "Live →" |} ];
    [ {| className := "btn btn--ghost";
         href := "https://github.com/IvanSh-dev/kinematic-analysis-python";
         label := "Code ↗" |} ];
    [ {| className := "btn"; href := "https://www.artstation.com/ivsh";
         label := "ArtStation ↗" |} ] ].
Proof. reflexivity. Qed.

(** * Accent preference: proofs *)

Lemma or_else_truthy (v d : string) : v <> "" -> or_else (Some v) d = v.
Proof.
  intros H. unfold or_else.
  now rewrite (proj2 (truthy_Some (Some v) v) (conj eq_refl H)).
Qed.

Lemma accentInitializer_accessible (w : Window) :
  accessible (localStorage w) = true ->
  accentInitializer w =
  (Normal (or_else (items (localStorage w) !! "accent") ACCENTS_0_value), w).
Proof.
  intros H. unfold accentInitializer, bind, getItem, ret. now rewrite H.
Qed.

Lemma accentEffect_working (w : Window) (a : string) :
  accessible (localStorage w) = true -> full (localStorage w) = false ->
  accentEffect a w =
  (Normal tt,
   {| localStorage := {| accessible := true; full := false;
                         items := <["accent" := a]> (items (localStorage w)) |};
      style := <["--accent" := a]> (style w) |}).
Proof.
  intros Ha Hf.
  unfold accentEffect, andThen, bind, setProperty, modify, setItem. simpl.
  now rewrite Ha, Hf.
Qed.

Lemma ACCENTS_values_nonempty (a : string) :
  In a (map value ACCENTS) -> a <> "".
Proof.
  simpl. intros H.
  repeat (destruct H as [<-|H]; [discriminate|]). destruct H.
Qed.

(** C4, as the specification states it, fails: with storage disabled the
    initialiser throws instead of yielding the default, and the effect throws
    both then and when the quota is exhausted. *)
Lemma storage_failure_not_contained :
  ~ storage_failure_contained disabledWindow "#06B6D4" /\
  ~ storage_failure_contained fullWindow "#06B6D4" /\
  fst (accentInitializer disabledWindow) = Throw SecurityError /\
  fst (accentEffect "#06B6D4" fullWindow) = Throw QuotaExceededError.
Proof.
  split; [|split; [|split; reflexivity]].
  - intros [H _]. vm_compute in H. discriminate.
  - intros [_ [H _]]. vm_compute in H. discriminate.
Qed.

(** C4, amended. The accent code has no handler around its storage calls. With
    storage disabled, the [SecurityError] leaves the initialiser ([load]) and
    the effect ([save]); with the quota exhausted, the [QuotaExceededError]
    leaves the effect. In both cases the effect has already set the style
    variable, and the storage is as it was. *)
Theorem storage_failure_propagates (w : Window) (a : string) :
  (accessible (localStorage w) = false ->
     accentInitializer w = (Throw SecurityError, w) /\
     accentEffect a w =
       (Throw SecurityError, with_style w (<["--accent" := a]> (style w)))) /\
  (accessible (localStorage w) = true -> full (localStorage w) = true ->
     accentEffect a w =
       (Throw QuotaExceededError, with_style w (<["--accent" := a]> (style w)))).
Proof.
  unfold accentInitializer, accentEffect, andThen, bind, getItem, setItem,
    setProperty, modify, ret, with_style.
  split.
  - intros H. simpl. now rewrite H.
  - intros Ha Hf. simpl. now rewrite Ha, Hf.
Qed.

Lemma storage_failure_propagates_witness :
  accessible (localStorage disabledWindow) = false /\
  accentInitializer disabledWindow = (Throw SecurityError, disabledWindow) /\
  accessible (localStorage fullWindow) = true /\
  full (localStorage fullWindow) = true /\
  accentEffect "#06B6D4" fullWindow =
    (Throw QuotaExceededError,
     with_style fullWindow (<["--accent" := "#06B6D4"]> (style fullWindow))).
Proof.
  split; [reflexivity|].
  split; [exact (proj1 (proj1 (storage_failure_propagates disabledWindow "") eq_refl))|].
  split; [reflexivity|]. split; [reflexivity|].
  exact (proj2 (storage_failure_propagates fullWindow "#06B6D4") eq_refl eq_refl).
Defined.

(** C5, as the specification states it, fails for the empty string: it is
    stored, and [load] answers with the first palette entry. *)
Lemma load_empty_string_not_passed_through :
  ~ load_passes_through emptyAccentWindow "" /\
  fst (accentInitializer emptyAccentWindow) = Normal "#7C3AED".
Proof.
  split; [|reflexivity].
  intros H. specialize (H eq_refl). vm_compute in H. discriminate.
Qed.

(** C5, amended. On a working storage: with nothing stored under ["accent"],
    [load] returns the first palette entry; a stored string that is not empty
    is returned as it is, in the palette or not; a stored empty string is
    treated like a missing one. *)
Theorem accentInitializer_load (w : Window) :
  accessible (localStorage w) = true ->
  hd_error (map value ACCENTS) = Some ACCENTS_0_value /\
  (items (localStorage w) !! "accent" = None ->
     accentInitializer w = (Normal ACCENTS_0_value, w)) /\
  (forall v, items (localStorage w) !! "accent" = Some v -> v <> "" ->
     accentInitializer w = (Normal v, w)) /\
  (items (localStorage w) !! "accent" = Some "" ->
     accentInitializer w = (Normal ACCENTS_0_value, w)).
Proof.
  intros Ha. rewrite (accentInitializer_accessible w Ha).
  split; [reflexivity|]. split; [|split].
  - now intros ->.
  - intros v -> Hv. now rewrite or_else_truthy.
  - now intros ->.
Qed.

Lemma accentInitializer_load_witness :
  let w := {| localStorage := {| accessible := true; full := false;
                                 items := <["accent" := "hotpink"]> ∅ |};
              style := ∅ |} in
  accessible (localStorage w) = true /\
  items (localStorage w) !! "accent" = Some "hotpink" /\
  "hotpink" <> "" /\
  ~ In "hotpink" (map value ACCENTS) /\
  accentInitializer w = (Normal "hotpink", w).
Proof.
  intros w.
  assert (Hv : "hotpink" <> "") by discriminate.
  split; [reflexivity|]. split; [reflexivity|]. split; [exact Hv|].
  split.
  - simpl. intros H. repeat (destruct H as [H|H]; [discriminate|]). destruct H.
  - exact (proj1 (proj2 (proj2 (accentInitializer_load w eq_refl))) "hotpink" eq_refl Hv).
Defined.

(** C6. On a working storage, saving a palette value and then loading from
    the window the save left behind returns that value. *)
Theorem accent_round_trip (w : Window) (a : string) :
  In a (map value ACCENTS) ->
  accessible (localStorage w) = true ->
  full (localStorage w) = false ->
  fst (accentEffect a w) = Normal tt /\
  fst (accentInitializer (snd (accentEffect a w))) = Normal a.
Proof.
  intros Hin Ha Hf. rewrite (accentEffect_working w a Ha Hf). cbn [fst snd].
  split; [reflexivity|].
  rewrite accentInitializer_accessible by reflexivity. cbn [fst localStorage items].
  rewrite lookup_insert_eq.
  now rewrite or_else_truthy by (now apply ACCENTS_values_nonempty).
Qed.

Lemma accent_round_trip_witness :
  let w := {| localStorage := {| accessible := true; full := false;
                                 items := <["accent" := "#7C3AED"]> ∅ |};
              style := ∅ |} in
  In "#84CC16" (map value ACCENTS) /\
  accessible (localStorage w) = true /\
  full (localStorage w) = false /\
  fst (accentEffect "#84CC16" w) = Normal tt /\
  fst (accentInitializer (snd (accentEffect "#84CC16" w))) = Normal "#84CC16".
Proof.
  intros w.
  assert (Hin : In "#84CC16" (map value ACCENTS)) by (simpl; tauto).
  split; [exact Hin|]. split; [reflexivity|]. split; [reflexivity|].
  exact (accent_round_trip w "#84CC16" Hin eq_refl eq_refl).
Defined.

(** * Toast and clipboard: proofs *)

Lemma Object_is_true (a b : option string) : Object_is a b = true <-> a = b.
Proof.
  destruct a as [x|], b as [y|]; simpl;
    try (split; [discriminate | intros [=]]); try tauto.
  rewrite String.eqb_eq. split; [now intros -> | now intros [= ->]].
Qed.

Lemma Object_is_false (a b : option string) : a <> b -> Object_is a b = false.
Proof.
  intros H. destruct (Object_is a b) eqn:E; [|reflexivity].
  now apply Object_is_true in E.
Qed.

Lemma setToast_toast (v : option string) (s : AppState) : toast (setToast v s) = v.
Proof.
  unfold setToast. destruct (Object_is v (toast s)) eqn:E; [|reflexivity].
  symmetry. now apply Object_is_true.
Qed.

Lemma setToast_same (s : AppState) : setToast (toast s) s = s.
Proof.
  unfold setToast. now rewrite (proj2 (Object_is_true _ _) eq_refl).
Qed.

Lemma length_append (a b : string) :
  String.length (a +:+ b) = (String.length a + String.length b)%nat.
Proof. induction a as [|c a IH]; simpl; [reflexivity | now rewrite IH]. Qed.

(** The failure text cannot be mistaken for a success text, whatever the
    label is. *)
Lemma copied_is_not_failed (label : string) : label +:+ " copied" <> "Copy failed".
Proof.
  intros H.
  assert (L : String.length label = 4%nat).
  { apply (f_equal String.length) in H. rewrite length_append in H.
    simpl in H. lia. }
  do 5 (destruct label as [|? label]; try discriminate L).
  simpl in H. discriminate H.
Qed.

(** C8. [copy] never throws. When the clipboard write is fulfilled the toast
    text is the label followed by [" copied"]; when the promise is rejected,
    for whatever reason, or the clipboard facility is missing, the toast text
    is ["Copy failed"], which is never a success text. *)
Theorem copy_outcome (navigator : Navigator) (text label : string) (s : AppState) :
  let r := copy navigator text label s in
  fst r = Normal tt /\
  (forall write, clipboard navigator = Some write -> write text = Fulfilled ->
     toast (snd r) = Some (label +:+ " copied")) /\
  (forall write reason, clipboard navigator = Some write ->
     write text = Rejected reason ->
     toast (snd r) = Some "Copy failed") /\
  (clipboard navigator = None -> toast (snd r) = Some "Copy failed") /\
  "Copy failed" <> label +:+ " copied".
Proof.
  unfold copy, try_catch, andThen, bind, writeText, modify.
  split; [|split; [|split; [|split]]].
  - destruct (clipboard navigator) as [write|]; [|reflexivity].
    destruct (write text); reflexivity.
  - intros write -> ->. simpl. apply setToast_toast.
  - intros write reason -> ->. simpl. apply setToast_toast.
  - intros ->. simpl. apply setToast_toast.
  - intros H. symmetry in H. revert H. apply copied_is_not_failed.
Qed.

Lemma copy_outcome_witness :
  let denied := {| clipboard := Some (fun _ => Rejected NotAllowedError) |} in
  let r := copy denied PROFILE.email "Email" App_mount in
  clipboard denied = Some (fun _ => Rejected NotAllowedError) /\
  fst r = Normal tt /\ toast (snd r) = Some "Copy failed".
Proof.
  intros denied r.
  split; [reflexivity|]. split.
  - exact (proj1 (copy_outcome denied PROFILE.email "Email" App_mount)).
  - exact (proj1 (proj2 (proj2 (copy_outcome denied PROFILE.email "Email" App_mount)))
             _ NotAllowedError eq_refl eq_refl).
Defined.

Example copy_email_granted :
  let granted := {| clipboard := Some (fun _ => Fulfilled) |} in
  toast (snd (copy granted PROFILE.email "Email" App_mount)) = Some "Email copied".
Proof. reflexivity. Qed.

(** ** The toast timer *)

Lemma visible_toast (s : AppState) (m : string) :
  visible s = Some m -> toast s = Some m.
Proof. intros H. now apply truthy_Some in H. Qed.

Lemma render_consistent (s : AppState) : pending_ok s -> consistent (render s).
Proof.
  intros Hp. unfold consistent, pending_ok, render, visible, Toast_commit. simpl.
  destruct (truthy (toast s)) as [m|] eqn:Ev.
  - destruct (toastEffect s) as [fx|] eqn:Efx.
    + destruct (Hp fx Efx) as [Hd Hc].
      destruct (Nat.eqb_spec (dep fx) (S (renders s))) as [E|_]; [lia|].
      split; [|split; discriminate].
      intros fx' [= <-]. simpl. lia.
    + split; [|split; discriminate].
      intros fx' [= <-]. simpl. lia.
  - split; [discriminate | tauto].
Qed.

Lemma setToast_consistent (v : option string) (s : AppState) :
  consistent s -> consistent (setToast v s).
Proof.
  intros Hc. unfold setToast. destruct (Object_is v (toast s)); [exact Hc|].
  apply render_consistent. exact (proj1 Hc).
Qed.

(** A due timeout closes the toast: the message is there (the timer is
    pending), so [setToast(null)] changes the state, [App] renders without
    [<Toast>], and the effect is cleaned up. *)
Lemma onClose_when_pending (t : nat) (s : AppState) (fx : ToastEffect) :
  consistent s -> toastEffect s = Some fx ->
  onClose (at_time t s) =
  {| clock := t; renders := S (renders s); toast := None; toastEffect := None |}.
Proof.
  intros [_ Hv] Efx. unfold onClose, setToast. simpl.
  destruct (toast s) as [m|] eqn:Et.
  - reflexivity.
  - exfalso. assert (H : visible s = None) by (unfold visible; now rewrite Et).
    apply Hv in H. congruence.
Qed.

Lemma advance_consistent (d : nat) (s : AppState) :
  consistent s -> consistent (advance d s).
Proof.
  intros Hc. unfold advance.
  destruct (toastEffect s) as [fx|] eqn:Efx.
  - destruct (Nat.leb_spec (fires fx) (clock s + d)) as [Hdue|Hnot].
    + rewrite (onClose_when_pending _ s fx Hc Efx).
      split; [intros ? [=] | split; reflexivity].
    + destruct Hc as [Hp Hv]. split.
      * intros fx' E. simpl in E. rewrite Efx in E. injection E as <-.
        destruct (Hp fx Efx). simpl. lia.
      * exact Hv.
  - destruct Hc as [Hp Hv]. split.
    + intros fx' E. simpl in E. congruence.
    + exact Hv.
Qed.

Lemma step_consistent (s : AppState) (ev : Event) :
  consistent s -> consistent (step s ev).
Proof.
  intros Hc. destruct ev as [v| |d]; simpl.
  - now apply setToast_consistent.
  - apply render_consistent, Hc.
  - now apply advance_consistent.
Qed.

Lemma App_mount_consistent : consistent App_mount.
Proof. split; [intros ? [=] | split; reflexivity]. Qed.

(** Every state the page can be in is consistent. *)
Lemma run_consistent (evs : list Event) : consistent (run evs).
Proof.
  unfold run. generalize App_mount_consistent. generalize App_mount.
  induction evs as [|ev evs IH]; intros s Hc; simpl; [exact Hc|].
  apply IH, step_consistent, Hc.
Qed.

(** After a [setToast] that changes the message to a non-empty one, the timer
    is the one set by the render this call caused. *)
Lemma setToast_new_message (s : AppState) (m2 : string) :
  consistent s -> toast s <> Some m2 -> m2 <> "" ->
  setToast (Some m2) s =
  {| clock := clock s; renders := S (renders s); toast := Some m2;
     toastEffect := Some {| dep := S (renders s); fires := clock s + 1800 |} |}.
Proof.
  intros [Hp _] Hne Hm. unfold setToast.
  rewrite Object_is_false by congruence.
  unfold render, Toast_commit, Toast_effect. simpl.
  destruct (String.eqb_spec m2 "") as [E|_]; [contradiction|].
  destruct (toastEffect s) as [fx|] eqn:Efx; [|reflexivity].
  destruct (Hp fx Efx) as [Hd _].
  destruct (Nat.eqb_spec (dep fx) (S (renders s))) as [E|_]; [lia | reflexivity].
Qed.

(** C9, as the specification states it, fails when the message shown is the
    one already on screen: ["Email copied"] is shown at time 0 and again at
    time 1000, and it is gone at time 1800, not at 2800. *)
Lemma same_message_does_not_restart :
  visible emailCopiedShown = Some "Email copied" /\
  ~ show_restarts_timer emailCopiedShown "Email copied" /\
  visible (advance 800 (setToast (Some "Email copied") emailCopiedShown)) = None.
Proof.
  split; [reflexivity|]. split; [|reflexivity].
  intros [_ H]. specialize (H 800%nat ltac:(lia)).
  vm_compute in H. discriminate.
Qed.

(** C9, amended. While [m1] is on screen, showing a different, non-empty
    message [m2] replaces it (the state holds one message, [m1] is gone for
    good) and sets a new timer: with nothing else happening, [m2] is on
    screen for less than 1800 ms after this call and gone from then on.
    Showing [m1] again changes nothing, the timer included. *)
Theorem show_replaces_and_restarts (s : AppState) (m1 m2 : string) :
  consistent s -> visible s = Some m1 ->
  (m2 <> "" -> m2 <> m1 ->
     let s' := setToast (Some m2) s in
     visible s' = Some m2 /\
     toastEffect s' = Some {| dep := S (renders s); fires := clock s + 1800 |} /\
     forall d, visible (advance d s') = if (d <? 1800)%nat then Some m2 else None) /\
  setToast (Some m1) s = s.
Proof.
  intros Hc Hv. pose proof (visible_toast s m1 Hv) as Ht. split.
  - intros Hm Hne.
    assert (Hnew : toast s <> Some m2) by (rewrite Ht; intros [= E]; now apply Hne).
    assert (Hc' : consistent (setToast (Some m2) s)) by (now apply setToast_consistent).
    cbv zeta. revert Hc'. rewrite (setToast_new_message s m2 Hc Hnew Hm).
    set (fx := {| dep := S (renders s); fires := clock s + 1800 |}).
    set (s' := {| clock := clock s; renders := S (renders s); toast := Some m2;
                  toastEffect := Some fx |}).
    intros Hc'.
    assert (Hv' : visible s' = Some m2) by (apply truthy_Some; auto).
    split; [exact Hv'|]. split; [reflexivity|].
    intros d. unfold advance.
    change (toastEffect s') with (Some fx). cbv iota beta.
    rewrite (onClose_when_pending _ s' fx Hc' eq_refl).
    change (fires fx) with (clock s + 1800)%nat.
    change (clock s') with (clock s).
    destruct (Nat.ltb_spec d 1800) as [Hd|Hd].
    + destruct (Nat.leb_spec (clock s + 1800) (clock s + d)) as [?|_]; [lia|].
      exact Hv'.
    + destruct (Nat.leb_spec (clock s + 1800) (clock s + d)) as [_|?]; [|lia].
      reflexivity.
  - rewrite <- Ht. apply setToast_same.
Qed.

Lemma show_replaces_and_restarts_witness :
  consistent emailCopiedShown /\
  visible emailCopiedShown = Some "Email copied" /\
  "Copy failed" <> "" /\ "Copy failed" <> "Email copied" /\
  visible (setToast (Some "Copy failed") emailCopiedShown) = Some "Copy failed" /\
  toastEffect (setToast (Some "Copy failed") emailCopiedShown) =
    Some {| dep := 3; fires := 2800 |} /\
  visible (advance 1799 (setToast (Some "Copy failed") emailCopiedShown)) =
    Some "Copy failed" /\
  visible (advance 1800 (setToast (Some "Copy failed") emailCopiedShown)) = None.
Proof.
  assert (Hc : consistent emailCopiedShown) by apply run_consistent.
  assert (H1 : "Copy failed" <> "") by discriminate.
  assert (H2 : "Copy failed" <> "Email copied") by discriminate.
  split; [exact Hc|]. split; [reflexivity|]. split; [exact H1|]. split; [exact H2|].
  destruct (proj1 (show_replaces_and_restarts emailCopiedShown
                     "Email copied" "Copy failed" Hc eq_refl) H1 H2)
    as (Hv & Hfx & Hd).
  split; [exact Hv|]. split; [exact Hfx|].
  split; [exact (Hd 1799%nat) | exact (Hd 1800%nat)].
Defined.

(** The timer also restarts on every other render of [App] while a message is
    on screen, since each render hands [Toast] a new [onClose]. *)
Lemma render_restarts_timer (s : AppState) (m : string) :
  consistent s -> visible s = Some m ->
  toastEffect (render s) = Some {| dep := S (renders s); fires := clock s + 1800 |}.
Proof.
  intros [Hp Hv] Hm. unfold render, Toast_commit, Toast_effect. simpl.
  unfold visible in Hm. rewrite Hm.
  destruct (toastEffect s) as [fx|] eqn:Efx; [|reflexivity].
  destruct (Hp fx Efx) as [Hd _].
  destruct (Nat.eqb_spec (dep fx) (S (renders s))) as [E|_]; [lia | reflexivity].
Qed.

(** * Scroll-spy: proofs *)

Lemma compareFn_keeps (a b : IntersectionObserverEntry) :
  Qle_bool (compareFn a b) 0 = true <-> (ratio b <= ratio a)%Q.
Proof.
  rewrite Qle_bool_iff. unfold compareFn. split; intros H; lra.
Qed.

Lemma sort_insert_In {A : Type} (cmp : A -> A -> Q) (x y : A) (l : list A) :
  In y (sort_insert cmp x l) <-> y = x \/ In y l.
Proof.
  induction l as [|z l IH]; simpl.
  - intuition congruence.
  - destruct (Qle_bool (cmp x z) 0); simpl; [intuition congruence|].
    rewrite IH. intuition congruence.
Qed.

Lemma sort_In {A : Type} (cmp : A -> A -> Q) (y : A) (l : list A) :
  In y (sort cmp l) <-> In y l.
Proof.
  induction l as [|x l IH]; simpl; [tauto|].
  rewrite sort_insert_In, IH. intuition congruence.
Qed.

Lemma sort_insert_descending (x : IntersectionObserverEntry)
    (l : list IntersectionObserverEntry) :
  descending l -> descending (sort_insert compareFn x l).
Proof.
  unfold descending. intros H. induction H as [|y l Hs IH Hy]; simpl.
  - repeat constructor.
  - destruct (Qle_bool (compareFn x y) 0) eqn:E.
    + apply compareFn_keeps in E. constructor; [now constructor|].
      constructor; [exact E|].
      rewrite List.Forall_forall in Hy |- *. intros z Hz. specialize (Hy z Hz). lra.
    + assert (Hlt : (ratio x <= ratio y)%Q).
      { destruct (Qlt_le_dec (ratio x) (ratio y)) as [?|Hle]; [lra|].
        apply compareFn_keeps in Hle. congruence. }
      constructor; [exact IH|].
      rewrite List.Forall_forall in Hy |- *. intros z Hz.
      apply sort_insert_In in Hz. destruct Hz as [->|Hz]; [exact Hlt | now apply Hy].
Qed.

Lemma sort_descending (l : list IntersectionObserverEntry) :
  descending (sort compareFn l).
Proof.
  induction l as [|x l IH]; simpl; [constructor|].
  now apply sort_insert_descending.
Qed.

(** The first element after sorting has the largest ratio of the list. *)
Lemma sort_head_max (l r : list IntersectionObserverEntry)
    (e : IntersectionObserverEntry) :
  sort compareFn l = e :: r ->
  In e l /\ forall e', In e' l -> (ratio e' <= ratio e)%Q.
Proof.
  intros E. split.
  - apply (sort_In compareFn). rewrite E. now left.
  - intros e' He'. apply (sort_In compareFn) in He'. rewrite E in He'.
    pose proof (sort_descending l) as Hd. unfold descending in Hd. rewrite E in Hd.
    inversion Hd as [|? ? _ Hall]; subst.
    destruct He' as [->|He']; [lra|].
    rewrite List.Forall_forall in Hall. now apply Hall.
Qed.

Lemma sort_nil {A : Type} (cmp : A -> A -> Q) (l : list A) :
  sort cmp l = [] -> l = [].
Proof.
  destruct l as [|x l]; [reflexivity|]. intros E.
  assert (H : In x (sort cmp (x :: l))) by (apply sort_In; now left).
  rewrite E in H. destruct H.
Qed.

(** Stability at the head: the entry that ends up first is the earliest of
    those with the largest ratio. *)
Lemma sort_head_first_highest (l r : list IntersectionObserverEntry)
    (e : IntersectionObserverEntry) :
  sort compareFn l = e :: r -> first_highest l e.
Proof.
  revert e r. induction l as [|x l IH]; intros e r E; [discriminate|].
  simpl in E. destruct (sort compareFn l) as [|y r'] eqn:El.
  - apply sort_nil in El. subst l. injection E as <- _.
    exists [], []. repeat split; constructor.
  - simpl in E. destruct (Qle_bool (compareFn x y) 0) eqn:Ec.
    + injection E as <- _. apply compareFn_keeps in Ec.
      destruct (sort_head_max l r' y El) as [_ Hmax].
      exists [], l. repeat split; [constructor|].
      apply List.Forall_forall. intros b Hb. specialize (Hmax b Hb). lra.
    + injection E as <- _.
      assert (Hlt : (ratio x < ratio y)%Q).
      { destruct (Qlt_le_dec (ratio x) (ratio y)) as [?|Hle]; [assumption|].
        apply compareFn_keeps in Hle. congruence. }
      destruct (IH y r' eq_refl) as (l1 & l2 & -> & H1 & H2).
      exists (x :: l1), l2. repeat split; [constructor; assumption | assumption].
Qed.

(** Ties keep the order of the batch. *)
Example sort_is_stable :
  map target (sort compareFn
    [entry true (3 # 10) "about"; entry true (1 # 2) "skills";
     entry true (1 # 2) "projects"; entry true (3 # 20) "home"]) =
  map (fun i => Some {| id := i |}) ["skills"; "projects"; "about"; "home"].
Proof. reflexivity. Qed.

Lemma getElementById_id (document : list Element) (i : string) (el : Element) :
  getElementById document i = Some el -> id el = i /\ i <> "".
Proof.
  unfold getElementById. destruct (String.eqb_spec i "") as [->|Hne]; [discriminate|].
  intros H. apply find_some in H. destruct H as [_ H].
  apply String.eqb_eq in H. auto.
Qed.

(** Observed elements carry one of the configured ids, and it is not empty. *)
Lemma els_id (document : list Element) (ids : list string) (el : Element) :
  In el (els document ids) -> In (id el) ids /\ id el <> "".
Proof.
  unfold els. rewrite in_flat_map. intros (i & Hi & Hel).
  destruct (getElementById document i) as [el'|] eqn:E; [|destruct Hel].
  destruct Hel as [<-|[]]. apply getElementById_id in E. destruct E as [-> ?]. auto.
Qed.

Lemma onIntersect_none (entries : list IntersectionObserverEntry) (active : string) :
  none_intersecting entries -> onIntersect entries active = active.
Proof.
  intros H. unfold onIntersect.
  assert (E : List.filter isIntersecting entries = []).
  { induction entries as [|e l IH]; simpl; [reflexivity|].
    rewrite (H e (or_introl eq_refl)). apply IH. intros e' He'. apply H. now right. }
  now rewrite E.
Qed.

Lemma onIntersect_some (document : list Element) (ids : list string)
    (entries : list IntersectionObserverEntry) (active : string)
    (e0 : IntersectionObserverEntry) :
  delivered document ids entries ->
  In e0 entries -> isIntersecting e0 = true ->
  exists top el, highest entries top /\ target top = Some el /\
                 In el (els document ids) /\
                 onIntersect entries active = id el.
Proof.
  intros Hd H0 Hi0. unfold onIntersect.
  destruct (sort compareFn (List.filter isIntersecting entries)) as [|top r] eqn:E.
  - apply sort_nil in E.
    assert (H : In e0 (List.filter isIntersecting entries)) by (apply filter_In; auto).
    rewrite E in H. destruct H.
  - apply sort_head_max in E. destruct E as [Htop Hmax].
    apply filter_In in Htop. destruct Htop as [Hin Hint].
    unfold delivered in Hd. rewrite List.Forall_forall in Hd.
    destruct (Hd top Hin) as (el & Ht & Hel).
    exists top, el. rewrite Ht.
    destruct (els_id _ _ _ Hel) as [_ Hne].
    rewrite (proj2 (truthy_Some (Some (id el)) (id el)) (conj eq_refl Hne)).
    repeat split; auto.
    intros e' He' Hi'. apply Hmax. apply filter_In. auto.
Qed.

Lemma useScrollSpy_snoc (ids : list string)
    (pre : list (list IntersectionObserverEntry))
    (entries : list IntersectionObserverEntry) :
  useScrollSpy ids (pre ++ [entries]) = onIntersect entries (useScrollSpy ids pre).
Proof. unfold useScrollSpy. now rewrite fold_left_app. Qed.

Lemma onIntersect_member (document : list Element) (ids : list string)
    (entries : list IntersectionObserverEntry) (active : string) :
  delivered document ids entries -> In active ids ->
  In (onIntersect entries active) ids.
Proof.
  intros Hd Ha.
  destruct (List.filter isIntersecting entries) as [|e0 r] eqn:E.
  - rewrite onIntersect_none; [exact Ha|].
    intros e He. destruct (isIntersecting e) eqn:Ei; [|reflexivity].
    assert (H : In e (List.filter isIntersecting entries)) by (apply filter_In; auto).
    rewrite E in H. destruct H.
  - assert (H : In e0 (List.filter isIntersecting entries)) by (rewrite E; now left).
    apply filter_In in H. destruct H as [H0 Hi0].
    destruct (onIntersect_some document ids entries active e0 Hd H0 Hi0)
      as (top & el & _ & _ & Hel & ->).
    now apply els_id in Hel.
Qed.

Lemma useScrollSpy_member (document : list Element) (ids : list string)
    (batches : list (list IntersectionObserverEntry)) :
  ids <> [] -> Forall (delivered document ids) batches ->
  In (useScrollSpy ids batches) ids.
Proof.
  intros Hne. induction batches as [|entries pre IH] using rev_ind; intros Hd.
  - unfold useScrollSpy. simpl. destruct ids; [contradiction | now left].
  - rewrite useScrollSpy_snoc. apply List.Forall_app in Hd. destruct Hd as [Hpre He].
    inversion He; subst. eapply onIntersect_member; eauto.
Qed.

(** C1. For a non-empty list of section ids and any sequence of batches the
    observer delivers (entries about observed elements), the active id is a
    member of the list before and after every batch. After a batch with an
    intersecting entry, the active id is the id of an intersecting entry of
    that batch whose ratio no other intersecting entry of the batch exceeds;
    after a batch with no intersecting entry it is what it was before. *)
Theorem useScrollSpy_active (document : list Element) (ids : list string)
    (batches : list (list IntersectionObserverEntry)) :
  ids <> [] -> Forall (delivered document ids) batches ->
  In (useScrollSpy ids batches) ids /\
  forall pre entries post, batches = pre ++ entries :: post ->
    let before := useScrollSpy ids pre in
    let after := useScrollSpy ids (pre ++ [entries]) in
    In before ids /\ In after ids /\
    (forall e, In e entries -> isIntersecting e = true ->
       exists top el, highest entries top /\ target top = Some el /\
                      after = id el) /\
    (none_intersecting entries -> after = before).
Proof.
  intros Hne Hd. split; [now apply (useScrollSpy_member document)|].
  intros pre entries post -> before after.
  apply List.Forall_app in Hd. destruct Hd as [Hpre Hrest].
  inversion Hrest as [|? ? He _]; subst.
  assert (Hb : In before ids) by (now apply (useScrollSpy_member document)).
  subst after. rewrite useScrollSpy_snoc. fold before.
  split; [exact Hb|]. split; [now apply (onIntersect_member document)|]. split.
  - intros e Hin Hint.
    destruct (onIntersect_some document ids entries before e He Hin Hint)
      as (top & el & Htop & Ht & _ & Eq).
    now exists top, el.
  - apply onIntersect_none.
Qed.

Lemma useScrollSpy_active_witness :
  sections <> [] /\
  Forall (delivered page sections) scrollDown /\
  In (useScrollSpy sections scrollDown) sections /\
  useScrollSpy sections scrollDown = "projects" /\
  In (entry true (3 # 20) "skills")
     [entry true (3 # 20) "skills"; entry true (1 # 2) "projects"] /\
  (exists top el,
     highest [entry true (3 # 20) "skills"; entry true (1 # 2) "projects"] top /\
     target top = Some el /\
     useScrollSpy sections
       ([ [entry true (3 # 10) "about"; entry false 0 "home"];
          [entry false (1 # 10) "about"] ] ++
        [ [entry true (3 # 20) "skills"; entry true (1 # 2) "projects"] ]) = id el).
Proof.
  assert (Hne : sections <> []) by discriminate.
  assert (Hd : Forall (delivered page sections) scrollDown).
  { repeat constructor; eexists; (split; [reflexivity | simpl; tauto]). }
  assert (Hin : In (entry true (3 # 20) "skills")
                   [entry true (3 # 20) "skills"; entry true (1 # 2) "projects"])
    by (now left).
  split; [exact Hne|]. split; [exact Hd|].
  split; [exact (proj1 (useScrollSpy_active page sections scrollDown Hne Hd))|].
  split; [reflexivity|]. split; [exact Hin|].
  exact (proj1 (proj2 (proj2
           (proj2 (useScrollSpy_active page sections scrollDown Hne Hd)
              [ [entry true (3 # 10) "about"; entry false 0 "home"];
                [entry false (1 # 10) "about"] ]
              [entry true (3 # 20) "skills"; entry true (1 # 2) "projects"]
              [] eq_refl)))
           _ Hin eq_refl).
Defined.

Example scrollDown_trace :
  map (fun n => useScrollSpy sections (firstn n scrollDown)) [0; 1; 2; 3]%nat =
  ["home"; "about"; "about"; "projects"].
Proof. reflexivity. Qed.

(** Only the entries of the batch at hand are compared: a section that was
    reported earlier with a larger ratio does not hold the active id against a
    later batch. *)
Example onIntersect_looks_at_the_batch :
  useScrollSpy sections [ [entry true (1 # 2) "about"]; [entry true (3 # 20) "skills"] ]
  = "skills".
Proof. reflexivity. Qed.

(** C10. Before any batch the active id is the first configured id; with no
    id configured it is ["home"]. *)
Theorem useScrollSpy_initial :
  (forall (i : string) (rest : list string), useScrollSpy (i :: rest) [] = i) /\
  useScrollSpy [] [] = "home" /\
  (forall ids : list string,
     hd_error ids = Some (useScrollSpy ids []) \/
     (ids = [] /\ useScrollSpy ids [] = "home")).
Proof.
  split; [reflexivity|]. split; [reflexivity|].
  intros [|i rest]; [right | left]; auto.
Qed.

Example useScrollSpy_initial_sections : useScrollSpy sections [] = "home".
Proof. reflexivity. Qed.

(** With no id configured the hook still reports ["home"], which is then not
    one of the configured ids. *)
Example useScrollSpy_empty_list : ~ In (useScrollSpy [] []) [].
Proof. intros []. Qed.

(** * Class names and navigation: proofs *)

Lemma filter_Boolean_app (xs ys : list (option string)) :
  filter_Boolean (xs ++ ys) = filter_Boolean xs ++ filter_Boolean ys.
Proof. unfold filter_Boolean. apply flat_map_app. Qed.

Lemma truthy_nonempty (a : string) : a <> "" -> truthy (Some a) = Some a.
Proof. intros H. now apply truthy_Some. Qed.

(** X1. [cn] leaves out an argument that is [false] or the empty string,
    wherever it stands, and puts exactly one space between two non-empty
    class names. *)
Theorem cn_drops_falsy (xs ys : list (option string)) (v : option string)
    (a b : string) :
  (truthy v = None -> cn (xs ++ v :: ys) = cn (xs ++ ys)) /\
  (a <> "" -> b <> "" -> cn [Some a; Some b] = a +:+ " " +:+ b) /\
  (a <> "" -> cn [Some a; None] = a).
Proof.
  split; [|split].
  - intros Hv. unfold cn.
    rewrite !filter_Boolean_app. unfold filter_Boolean at 2. cbn [flat_map].
    now rewrite Hv.
  - intros Ha Hb. unfold cn, filter_Boolean. cbn [flat_map].
    rewrite (truthy_nonempty a Ha), (truthy_nonempty b Hb). reflexivity.
  - intros Ha. unfold cn, filter_Boolean. cbn [flat_map].
    now rewrite (truthy_nonempty a Ha).
Qed.

Lemma cn_drops_falsy_witness :
  truthy (Some "") = None /\
  cn ([Some "tag"] ++ Some "" :: [and_then true "tag--on"]) = "tag tag--on" /\
  "tag" <> "" /\ "tag--on" <> "" /\
  cn [Some "tag"; Some "tag--on"] = "tag tag--on".
Proof.
  assert (H1 : "tag" <> "") by discriminate.
  assert (H2 : "tag--on" <> "") by discriminate.
  split; [reflexivity|]. split.
  - rewrite (proj1 (cn_drops_falsy [Some "tag"] [and_then true "tag--on"]
                      (Some "") "" "") eq_refl).
    reflexivity.
  - split; [exact H1|]. split; [exact H2|].
    exact (proj1 (proj2 (cn_drops_falsy [] [] None "tag" "tag--on")) H1 H2).
Defined.

Lemma navClassName_cases (active i : string) :
  navClassName active i =
  if (active =? i)%string then "nav__item nav__item--active" else "nav__item".
Proof. unfold navClassName. now destruct (active =? i)%string. Qed.

Lemma mobileNavClassName_cases (active i : string) :
  mobileNavClassName active i =
  if (active =? i)%string then "mobileNav__item mobileNav__item--active"
  else "mobileNav__item".
Proof. unfold mobileNavClassName. now destruct (active =? i)%string. Qed.

Lemma filter_eqb_NoDup (a : string) (l : list string) :
  List.NoDup l ->
  List.filter (String.eqb a) l = if includes l a then [a] else [].
Proof.
  intros H. induction H as [|x l Hx H IH]; simpl; [reflexivity|].
  rewrite (String.eqb_sym x a).
  destruct (String.eqb_spec a x) as [->|Hne]; simpl.
  - rewrite IH. now rewrite (proj2 (includes_not_In l x) Hx).
  - exact IH.
Qed.

Lemma filter_map_ext {A : Type} (f g : A -> bool) (l : list A) :
  (forall x, f x = g x) -> List.filter f l = List.filter g l.
Proof. intros E. induction l as [|x l IH]; simpl; [reflexivity|]. now rewrite E, IH. Qed.

(** X2. Whatever batches the observer delivers, exactly one button of the top
    navigation carries the active class, and exactly one button of the mobile
    navigation: the one of the active id. The ids have to be distinct and at
    least one. *)
Theorem nav_highlights_one (document : list Element) (ids : list string)
    (batches : list (list IntersectionObserverEntry)) :
  ids <> [] -> List.NoDup ids -> Forall (delivered document ids) batches ->
  let active := useScrollSpy ids batches in
  List.filter (fun i => (navClassName active i =? "nav__item nav__item--active")%string) ids
    = [active] /\
  List.filter (fun i => (mobileNavClassName active i =?
                         "mobileNav__item mobileNav__item--active")%string) ids
    = [active] /\
  forall i, i <> active ->
    navClassName active i = "nav__item" /\
    mobileNavClassName active i = "mobileNav__item".
Proof.
  intros Hne Hnd Hd active.
  assert (Hin : In active ids) by (now apply (useScrollSpy_member document)).
  assert (E : List.filter (String.eqb active) ids = [active]).
  { rewrite filter_eqb_NoDup by assumption.
    now rewrite (proj2 (includes_In ids active) Hin). }
  split; [|split].
  - rewrite <- E. apply filter_map_ext. intros i.
    rewrite navClassName_cases. now destruct (active =? i)%string.
  - rewrite <- E. apply filter_map_ext. intros i.
    rewrite mobileNavClassName_cases. now destruct (active =? i)%string.
  - intros i Hi. rewrite navClassName_cases, mobileNavClassName_cases.
    destruct (String.eqb_spec active i) as [->|_]; [contradiction | auto].
Qed.

Lemma nav_highlights_one_witness :
  sections <> [] /\ List.NoDup sections /\
  Forall (delivered page sections) scrollDown /\
  List.filter (fun i => (navClassName (useScrollSpy sections scrollDown) i =?
                         "nav__item nav__item--active")%string) sections
    = ["projects"].
Proof.
  assert (Hne : sections <> []) by discriminate.
  assert (Hnd : List.NoDup sections).
  { repeat (constructor; [simpl; intros H;
                          repeat (destruct H as [H|H]; [discriminate|]); destruct H|]).
    constructor. }
  assert (Hd : Forall (delivered page sections) scrollDown).
  { repeat constructor; eexists; (split; [reflexivity | simpl; tauto]). }
  split; [exact Hne|]. split; [exact Hnd|]. split; [exact Hd|].
  exact (proj1 (nav_highlights_one page sections scrollDown Hne Hnd Hd)).
Defined.

(** X3. The swatch of the accent picker that is marked is the one whose value
    is the current accent: one swatch when the accent is a palette value, none
    when it is not (a value passed through from storage). *)
Theorem accent_picker_marks (accent : string) :
  (forall c, In c ACCENTS ->
     (accentDotClassName accent c = "accentDot accentDot--on" <-> accent = value c) /\
     (accent <> value c -> accentDotClassName accent c = "accentDot")) /\
  (In accent (map value ACCENTS) ->
     length (List.filter (fun c => (accentDotClassName accent c =?
                                    "accentDot accentDot--on")%string) ACCENTS) = 1%nat) /\
  (~ In accent (map value ACCENTS) ->
     List.filter (fun c => (accentDotClassName accent c =?
                            "accentDot accentDot--on")%string) ACCENTS = []).
Proof.
  assert (Hc : forall c, accentDotClassName accent c =
                 if (accent =? value c)%string then "accentDot accentDot--on"
                 else "accentDot").
  { intros c. unfold accentDotClassName. now destruct (accent =? value c)%string. }
  assert (Hf : List.filter (fun c => (accentDotClassName accent c =?
                                      "accentDot accentDot--on")%string) ACCENTS =
               List.filter (fun c => (accent =? value c)%string) ACCENTS).
  { apply filter_map_ext. intros c. rewrite Hc.
    now destruct (accent =? value c)%string. }
  split; [|split].
  - intros c _. rewrite Hc.
    destruct (String.eqb_spec accent (value c)) as [E|E].
    + split; [tauto | contradiction].
    + split; [split; [discriminate | contradiction] | reflexivity].
  - intros Hin. rewrite Hf. simpl in Hin.
    repeat (destruct Hin as [<-|Hin]; [reflexivity|]). destruct Hin.
  - intros Hnin. rewrite Hf. simpl in Hnin. simpl.
    repeat match goal with
      | |- context [(accent =? ?v)%string] =>
          destruct (String.eqb_spec accent v) as [->|_]; [exfalso; apply Hnin; tauto|]
      end.
    reflexivity.
Qed.

Lemma accent_picker_marks_witness :
  ~ In "hotpink" (map value ACCENTS) /\
  List.filter (fun c => (accentDotClassName "hotpink" c =?
                         "accentDot accentDot--on")%string) ACCENTS = [] /\
  In "#84CC16" (map value ACCENTS) /\
  length (List.filter (fun c => (accentDotClassName "#84CC16" c =?
                                 "accentDot accentDot--on")%string) ACCENTS) = 1%nat.
Proof.
  assert (H1 : ~ In "hotpink" (map value ACCENTS)).
  { simpl. intros H. repeat (destruct H as [H|H]; [discriminate|]). destruct H. }
  assert (H2 : In "#84CC16" (map value ACCENTS)) by (simpl; tauto).
  split; [exact H1|].
  split; [exact (proj2 (proj2 (accent_picker_marks "hotpink")) H1)|].
  split; [exact H2|].
  exact (proj1 (proj2 (accent_picker_marks "#84CC16")) H2).
Defined.

(** X4. The label of a button of the top navigation cannot be computed for
    the empty id: the lookup of its first code unit gives [undefined] and the
    method call throws. For every other id the label is the label of the
    mobile navigation followed by the rest of the id (by nothing for
    ["home"]), so the two navigations agree on the first letter. *)
Theorem navLabel_contract (toUpperCase : string -> string) (i : string) :
  (navLabel toUpperCase i = Throw TypeError <-> i = "") /\
  (i <> "" ->
     navLabel toUpperCase i =
     Normal (mobileNavLabel toUpperCase i +:+
             (if (i =? "home")%string then "" else slice_1 i))).
Proof.
  unfold navLabel, mobileNavLabel.
  destruct (String.eqb_spec i "home") as [->|Hh].
  - split; [split; discriminate | reflexivity].
  - destruct i as [|c rest]; simpl.
    + split; [tauto | contradiction].
    + split; [split; discriminate | reflexivity].
Qed.

Lemma navLabel_contract_witness :
  "projects" <> "" /\
  navLabel asciiUpper "projects" = Normal "Projects" /\
  mobileNavLabel asciiUpper "projects" = "P".
Proof.
  assert (H : "projects" <> "") by discriminate.
  split; [exact H|]. split; [|reflexivity].
  exact (proj2 (navLabel_contract asciiUpper "projects") H).
Defined.

Lemma find_first {A : Type} (f : A -> bool) (l : list A) (x : A) :
  find f l = Some x ->
  exists l1 l2, l = l1 ++ x :: l2 /\ f x = true /\ forall y, In y l1 -> f y = false.
Proof.
  induction l as [|y l IH]; simpl; [discriminate|].
  destruct (f y) eqn:E.
  - intros [= ->]. exists [], l. repeat split; [exact E | intros ? []].
  - intros H. destruct (IH H) as (l1 & l2 & -> & Hx & Hl1).
    exists (y :: l1), l2. repeat split; [exact Hx|].
    intros z [<-|Hz]; [exact E | now apply Hl1].
Qed.

(** X5. [scrollToId] does nothing when the id is empty or no element of the
    document carries it. Otherwise it makes one smooth scroll, to the first
    element of the document with that id. *)
Theorem scrollToId_target (document : list Element) (i : string) :
  (scrollToId document i = None <->
     i = "" \/ forall el, In el document -> id el <> i) /\
  (forall call, scrollToId document i = Some call ->
     id (scrolled call) = i /\ behavior call = "smooth" /\ block call = "start" /\
     exists before after,
       document = before ++ scrolled call :: after /\
       forall el, In el before -> id el <> i).
Proof.
  unfold scrollToId, getElementById. split.
  - destruct (String.eqb_spec i "") as [->|Hne]; [tauto|].
    destruct (find (fun el => (id el =? i)%string) document) as [el|] eqn:E.
    + split; [discriminate|]. intros [?|H]; [contradiction|].
      apply find_some in E. destruct E as [Hin Hid].
      apply String.eqb_eq in Hid. now apply H in Hin.
    + split; [|reflexivity]. intros _. right. intros el Hin Hid.
      pose proof (find_none _ _ E el Hin) as Hf. simpl in Hf.
      apply String.eqb_neq in Hf. contradiction.
  - intros call. destruct (String.eqb_spec i "") as [->|Hne]; [discriminate|].
    destruct (find (fun el => (id el =? i)%string) document) as [el|] eqn:E;
      [|discriminate].
    intros [= <-]. simpl.
    destruct (find_first _ _ _ E) as (l1 & l2 & -> & Hid & Hl1).
    apply String.eqb_eq in Hid.
    repeat split; auto. exists l1, l2. split; [reflexivity|].
    intros y Hy. apply Hl1 in Hy. now apply String.eqb_neq in Hy.
Qed.

Lemma scrollToId_target_witness :
  scrollToId page "skills" =
    Some {| scrolled := {| id := "skills" |}; behavior := "smooth"; block := "start" |} /\
  exists before after,
    page = before ++ {| id := "skills" |} :: after /\
    forall el, In el before -> id el <> "skills".
Proof.
  assert (H : scrollToId page "skills" =
              Some {| scrolled := {| id := "skills" |}; behavior := "smooth";
                      block := "start" |}) by reflexivity.
  split; [exact H|].
  exact (proj2 (proj2 (proj2 (proj2 (scrollToId_target page "skills") _ H)))).
Defined.

Example scrollToId_missing :
  scrollToId page "blog" = None /\ scrollToId page "" = None.
Proof. split; reflexivity. Qed.

Lemma els_getElementById (document : list Element) (ids : list string) (el : Element) :
  In el (els document ids) -> getElementById document (id el) = Some el.
Proof.
  unfold els. rewrite in_flat_map. intros (i & _ & Hel).
  destruct (getElementById document i) as [el'|] eqn:E; [|destruct Hel].
  destruct Hel as [<-|[]].
  destruct (getElementById_id _ _ _ E) as [-> _]. exact E.
Qed.

(** X6. Once a batch with an intersecting entry has set the active id, the
    navigation button of that id scrolls to the very element whose entry won:
    the scroll-spy never makes an id active that [scrollToId] cannot reach. *)
Theorem active_is_scrollable (document : list Element) (ids : list string)
    (entries : list IntersectionObserverEntry) (active : string)
    (e : IntersectionObserverEntry) :
  delivered document ids entries -> In e entries -> isIntersecting e = true ->
  exists top el,
    highest entries top /\ target top = Some el /\
    scrollToId document (onIntersect entries active) =
      Some {| scrolled := el; behavior := "smooth"; block := "start" |}.
Proof.
  intros Hd Hin Hint.
  destruct (onIntersect_some document ids entries active e Hd Hin Hint)
    as (top & el & Htop & Ht & Hel & ->).
  exists top, el. split; [exact Htop|]. split; [exact Ht|].
  unfold scrollToId. now rewrite (els_getElementById document ids el Hel).
Qed.

Lemma active_is_scrollable_witness :
  delivered page sections [entry true (3 # 20) "skills"; entry true (1 # 2) "projects"] /\
  exists top el,
    highest [entry true (3 # 20) "skills"; entry true (1 # 2) "projects"] top /\
    target top = Some el /\
    scrollToId page
      (onIntersect [entry true (3 # 20) "skills"; entry true (1 # 2) "projects"] "home") =
      Some {| scrolled := el; behavior := "smooth"; block := "start" |}.
Proof.
  assert (Hd : delivered page sections
                 [entry true (3 # 20) "skills"; entry true (1 # 2) "projects"]).
  { repeat constructor; eexists; (split; [reflexivity | simpl; tauto]). }
  split; [exact Hd|].
  exact (active_is_scrollable page sections _ "home" (entry true (3 # 20) "skills")
           Hd (or_introl eq_refl) eq_refl).
Defined.

(** X7. Among the intersecting entries of a batch with equal highest ratios
    the one delivered first wins: the new active id is the id of an
    intersecting entry that has a strictly larger ratio than every
    intersecting entry before it and at least the ratio of every one after
    it. *)
Theorem onIntersect_first_wins (document : list Element) (ids : list string)
    (entries : list IntersectionObserverEntry) (active : string)
    (e : IntersectionObserverEntry) :
  delivered document ids entries -> In e entries -> isIntersecting e = true ->
  exists top el,
    first_highest (List.filter isIntersecting entries) top /\
    target top = Some el /\ onIntersect entries active = id el.
Proof.
  intros Hd Hin Hint. unfold onIntersect.
  destruct (sort compareFn (List.filter isIntersecting entries)) as [|top r] eqn:E.
  - apply sort_nil in E.
    assert (H : In e (List.filter isIntersecting entries)) by (apply filter_In; auto).
    rewrite E in H. destruct H.
  - pose proof (sort_head_first_highest _ _ _ E) as Hfirst.
    apply sort_head_max in E. destruct E as [Htop _].
    apply filter_In in Htop. destruct Htop as [Htop _].
    unfold delivered in Hd. rewrite List.Forall_forall in Hd.
    destruct (Hd top Htop) as (el & Ht & Hel).
    exists top, el. rewrite Ht.
    destruct (els_id _ _ _ Hel) as [_ Hne].
    now rewrite (truthy_nonempty (id el) Hne).
Qed.

Lemma onIntersect_first_wins_witness :
  let batch := [entry true (3 # 10) "about"; entry true (1 # 2) "skills";
                entry false (9 # 10) "home"; entry true (1 # 2) "projects"] in
  delivered page sections batch /\
  onIntersect batch "home" = "skills" /\
  exists top el,
    first_highest (List.filter isIntersecting batch) top /\
    target top = Some el /\ onIntersect batch "home" = id el.
Proof.
  intros batch.
  assert (Hd : delivered page sections batch).
  { repeat constructor; eexists; (split; [reflexivity | simpl; tauto]). }
  split; [exact Hd|]. split; [reflexivity|].
  exact (onIntersect_first_wins page sections batch "home" (entry true (3 # 10) "about")
           Hd (or_introl eq_refl) eq_refl).
Defined.

(** * Filter bar: further proofs *)

Lemma tagSet_In (all : list Project) (t : string) :
  In t (tagSet all) <-> exists p, In p all /\ In t (tags p).
Proof.
  unfold tagSet. rewrite tagSet_flat, fold_Set_add_In, in_flat_map. simpl. tauto.
Qed.

(** X8. Which projects are shown: a project is on the list for the filter [t]
    exactly when it is one of the projects and either [t] is ["All"] or [t] is
    one of its tags. A tag spelled ["All"] therefore never narrows the list. *)
Theorem visibleProjects_In (all : list Project) (t : string) (p : Project) :
  In p (visibleProjects all t) <-> In p all /\ (t = "All" \/ In t (tags p)).
Proof.
  unfold visibleProjects. destruct (String.eqb_spec t "All") as [->|Hne].
  - tauto.
  - rewrite filter_In, includes_In. tauto.
Qed.

(** X9. No button of the tag bar leads to an empty list: for every entry of
    the vocabulary of a non-empty project list, at least one project is
    shown. *)
Theorem tag_buttons_show_something (all : list Project) (t : string) :
  all <> [] -> In t (allTags all) -> visibleProjects all t <> [].
Proof.
  intros Hne Hin.
  assert (H : exists p, In p (visibleProjects all t)).
  { destruct Hin as [<-|Hin].
    - destruct all as [|p all]; [contradiction|]. exists p. now left.
    - apply tagSet_In in Hin. destruct Hin as (p & Hp & Ht).
      exists p. unfold visibleProjects.
      destruct (t =? "All")%string; [exact Hp|].
      apply filter_In. split; [exact Hp | now apply includes_In]. }
  destruct H as (p & Hp). intros E. rewrite E in Hp. destruct Hp.
Qed.

Lemma tag_buttons_show_something_witness :
  PROJECTS <> [] /\ In "Tkinter" (allTags PROJECTS) /\
  visibleProjects PROJECTS "Tkinter" <> [].
Proof.
  assert (H1 : PROJECTS <> []) by discriminate.
  assert (H2 : In "Tkinter" (allTags PROJECTS)) by (simpl; tauto).
  split; [exact H1|]. split; [exact H2|].
  exact (tag_buttons_show_something PROJECTS "Tkinter" H1 H2).
Defined.

Lemma filter_idem {A : Type} (f : A -> bool) (l : list A) :
  List.filter f (List.filter f l) = List.filter f l.
Proof.
  induction l as [|x l IH]; simpl; [reflexivity|].
  destruct (f x) eqn:E; simpl; [now rewrite E, IH | exact IH].
Qed.

Lemma filter_comm {A : Type} (f g : A -> bool) (l : list A) :
  List.filter f (List.filter g l) = List.filter g (List.filter f l).
Proof.
  induction l as [|x l IH]; simpl; [reflexivity|].
  destruct (f x) eqn:Ef, (g x) eqn:Eg; simpl; rewrite ?Ef, ?Eg, IH; reflexivity.
Qed.

(** X10. Filtering composes: applying the same filter twice is applying it
    once, two filters can be applied in either order, and a filter never
    lengthens the list. *)
Theorem visibleProjects_compose (all : list Project) (t u : string) :
  visibleProjects (visibleProjects all t) t = visibleProjects all t /\
  visibleProjects (visibleProjects all t) u = visibleProjects (visibleProjects all u) t /\
  (length (visibleProjects all t) <= length all)%nat.
Proof.
  unfold visibleProjects.
  destruct (String.eqb_spec t "All") as [->|Ht], (String.eqb_spec u "All") as [->|Hu];
    repeat split; auto using filter_idem, filter_comm, filter_length_le.
Qed.

(** X11. Appending projects to the list only appends to the tag bar: the
    vocabulary of the longer list starts with the vocabulary of the shorter
    one, and what follows are tags the shorter list did not have. *)
Theorem allTags_grows (all more : list Project) :
  exists added,
    allTags (all ++ more) = allTags all ++ added /\
    forall t, In t added -> ~ In t (tagSet all).
Proof.
  unfold allTags, tagSet. rewrite fold_left_app, !tagSet_flat.
  set (s := fold_left Set_add (flat_map tags all) []).
  assert (Hs : List.NoDup s) by (apply fold_Set_add_NoDup; constructor).
  destruct (fold_Set_add_extends (flat_map tags more) s) as [added E].
  exists added. rewrite E. split; [reflexivity|].
  intros t Ht Hin.
  assert (Hnd : List.NoDup (s ++ added)).
  { rewrite <- E. now apply fold_Set_add_NoDup. }
  apply in_split in Hin. destruct Hin as (s1 & s2 & Es).
  rewrite Es in Hnd. rewrite <- app_assoc in Hnd. simpl in Hnd.
  apply NoDup_remove_2 in Hnd. apply Hnd.
  rewrite !in_app_iff. auto.
Qed.

Example allTags_grows_PROJECTS :
  allTags (PROJECTS ++ [codeOnly; allLinks]) = allTags PROJECTS.
Proof. reflexivity. Qed.

(** * Accent state and pointer tracker: proofs *)

Lemma or_else_nonempty (v : option string) (d : string) :
  d <> "" -> or_else v d <> "".
Proof.
  intros Hd. unfold or_else. destruct (truthy v) as [s|] eqn:E; [|exact Hd].
  now apply truthy_Some in E.
Qed.

Lemma ACCENTS_0_value_nonempty : ACCENTS_0_value <> "".
Proof. discriminate. Qed.

Lemma App_accent_mount_working (w : Window) :
  working w ->
  App_accent_mount w =
  (Normal (or_else (items (localStorage w) !! "accent") ACCENTS_0_value),
   {| localStorage :=
        {| accessible := true; full := false;
           items := <["accent" := or_else (items (localStorage w) !! "accent")
                                          ACCENTS_0_value]> (items (localStorage w)) |};
      style := <["--accent" := or_else (items (localStorage w) !! "accent")
                                       ACCENTS_0_value]> (style w) |}).
Proof.
  intros [Ha Hf]. unfold App_accent_mount, bind at 1.
  rewrite (accentInitializer_accessible w Ha).
  unfold andThen, bind. now rewrite (accentEffect_working w _ Ha Hf).
Qed.

(** X12. Mounting the page on a working storage gives an accent that is never
    the empty string, and stores that accent. When the accent is a palette
    value (nothing usable was stored, or a palette value was), the style
    variable holds it too. A reload (same storage, fresh style) then starts
    with the same accent and leaves the storage as it is. *)
Theorem accent_mount_is_stable (w : Window) (fresh : gmap string string) :
  working w ->
  let r := App_accent_mount w in
  let a := or_else (items (localStorage w) !! "accent") ACCENTS_0_value in
  let reloaded := App_accent_mount (with_style (snd r) fresh) in
  fst r = Normal a /\ a <> "" /\
  items (localStorage (snd r)) !! "accent" = Some a /\
  (In a (map value ACCENTS) -> style (snd r) !! "--accent" = Some a) /\
  fst reloaded = Normal a /\
  localStorage (snd reloaded) = localStorage (snd r).
Proof.
  intros Hw r a reloaded. subst r reloaded.
  rewrite (App_accent_mount_working w Hw). cbn [fst snd]. fold a.
  assert (Ha : a <> "") by (apply or_else_nonempty, ACCENTS_0_value_nonempty).
  split; [reflexivity|]. split; [exact Ha|].
  split; [cbn; apply lookup_insert_eq|].
  split; [intros _; cbn; apply lookup_insert_eq|].
  rewrite App_accent_mount_working by (split; reflexivity).
  cbn [fst snd with_style localStorage items style].
  rewrite lookup_insert_eq, (or_else_truthy a _ Ha).
  split; [reflexivity|]. now rewrite insert_insert_eq.
Qed.

Lemma accent_mount_is_stable_witness :
  let w := {| localStorage := {| accessible := true; full := false; items := ∅ |};
              style := ∅ |} in
  working w /\
  In "#7C3AED" (map value ACCENTS) /\
  fst (App_accent_mount w) = Normal "#7C3AED" /\
  items (localStorage (snd (App_accent_mount w))) !! "accent" = Some "#7C3AED" /\
  style (snd (App_accent_mount w)) !! "--accent" = Some "#7C3AED" /\
  fst (App_accent_mount (with_style (snd (App_accent_mount w)) ∅)) = Normal "#7C3AED".
Proof.
  intros w.
  assert (Hw : working w) by (split; reflexivity).
  assert (Hin : In "#7C3AED" (map value ACCENTS)) by (simpl; tauto).
  destruct (accent_mount_is_stable w ∅ Hw) as (H1 & _ & H3 & H4 & H5 & _).
  split; [exact Hw|]. split; [exact Hin|]. split; [exact H1|].
  split; [exact H3|]. split; [exact (H4 Hin) | exact H5].
Defined.

Lemma setAccent_working (v accent : string) (w : Window) :
  working w -> in_step accent w ->
  fst (setAccent v accent w) = Normal v /\
  in_step v (snd (setAccent v accent w)) /\
  working (snd (setAccent v accent w)).
Proof.
  intros Hw Hs. unfold setAccent. simpl.
  destruct (String.eqb_spec v accent) as [->|Hne].
  - repeat split; try apply Hs; apply Hw.
  - destruct Hw as [Ha Hf]. unfold andThen, bind.
    rewrite (accentEffect_working w v Ha Hf). cbn.
    repeat split; apply lookup_insert_eq.
Qed.

Lemma last_cons (v d : string) (vs : list string) :
  List.last (v :: vs) d = List.last vs v.
Proof.
  revert v d. induction vs as [|u vs IH]; intros v d; [reflexivity|].
  change (List.last (v :: u :: vs) d) with (List.last (u :: vs) d).
  now rewrite !IH.
Qed.

Lemma pickAccents_working (vs : list string) (accent : string) (w : Window) :
  working w -> in_step accent w ->
  fst (pickAccents vs accent w) = Normal (List.last vs accent) /\
  in_step (List.last vs accent) (snd (pickAccents vs accent w)) /\
  working (snd (pickAccents vs accent w)).
Proof.
  revert accent w. induction vs as [|v vs IH]; intros accent w Hw Hs.
  - simpl. auto.
  - destruct (setAccent_working v accent w Hw Hs) as (H1 & H2 & H3).
    assert (Eb : pickAccents (v :: vs) accent w =
                 pickAccents vs v (snd (setAccent v accent w))).
    { cbn [pickAccents]. unfold bind.
      destruct (setAccent v accent w) as [[a|e] w']; cbn [fst snd] in *;
        [now injection H1 as -> | discriminate]. }
    rewrite Eb, last_cons. now apply IH.
Qed.

Lemma last_Forall (P : string -> Prop) (vs : list string) (d : string) :
  vs <> [] -> Forall P vs -> P (List.last vs d).
Proof.
  intros Hne H. induction H as [|v vs Hv H IH]; [contradiction|].
  rewrite last_cons. destruct vs as [|u vs]; [exact Hv|].
  rewrite last_cons, <- (last_cons u d vs). apply IH. discriminate.
Qed.

(** X13. On a working storage, after the page is mounted and [setAccent] has
    been called any number of times, the accent state is the value of the
    last call (the loaded accent if there was none), the storage holds that
    value and stays usable. When there was at least one call and every call
    passed a palette value, as the clicks on the picker do, the result is a
    palette value and the style variable holds it too. *)
Theorem pickAccents_in_step (w : Window) (vs : list string) :
  working w ->
  let r := bind App_accent_mount (pickAccents vs) w in
  let a := List.last vs (or_else (items (localStorage w) !! "accent") ACCENTS_0_value) in
  fst r = Normal a /\
  items (localStorage (snd r)) !! "accent" = Some a /\
  working (snd r) /\
  (vs <> [] -> Forall (fun v => In v (map value ACCENTS)) vs ->
     In a (map value ACCENTS) /\ style (snd r) !! "--accent" = Some a).
Proof.
  intros Hw r a. subst r a.
  assert (E : bind App_accent_mount (pickAccents vs) w =
              pickAccents vs (or_else (items (localStorage w) !! "accent") ACCENTS_0_value)
                (snd (App_accent_mount w))).
  { unfold bind. now rewrite (App_accent_mount_working w Hw). }
  rewrite E, (App_accent_mount_working w Hw). cbn [snd].
  match goal with
  | |- context [pickAccents vs ?a0 ?w0] =>
      destruct (pickAccents_working vs a0 w0) as (H1 & [H2 H3] & H4)
  end.
  - split; reflexivity.
  - split; cbn; apply lookup_insert_eq.
  - split; [exact H1|]. split; [exact H2|]. split; [exact H4|].
    intros Hne Hall. split; [|exact H3].
    now apply (last_Forall (fun v => In v (map value ACCENTS))).
Qed.

Lemma pickAccents_in_step_witness :
  let w := {| localStorage := {| accessible := true; full := false;
                                 items := <["accent" := "hotpink"]> ∅ |};
              style := ∅ |} in
  let r := bind App_accent_mount (pickAccents ["#06B6D4"; "#06B6D4"; "#F59E0B"]) w in
  working w /\
  ["#06B6D4"; "#06B6D4"; "#F59E0B"] <> [] /\
  Forall (fun v => In v (map value ACCENTS)) ["#06B6D4"; "#06B6D4"; "#F59E0B"] /\
  fst r = Normal "#F59E0B" /\
  items (localStorage (snd r)) !! "accent" = Some "#F59E0B" /\
  style (snd r) !! "--accent" = Some "#F59E0B".
Proof.
  intros w r.
  assert (Hw : working w) by (split; reflexivity).
  assert (Hne : ["#06B6D4"; "#06B6D4"; "#F59E0B"] <> []) by discriminate.
  assert (Hall : Forall (fun v => In v (map value ACCENTS))
                   ["#06B6D4"; "#06B6D4"; "#F59E0B"])
    by (repeat constructor; simpl; tauto).
  destruct (pickAccents_in_step w ["#06B6D4"; "#06B6D4"; "#F59E0B"] Hw)
    as (H1 & H2 & _ & H4).
  split; [exact Hw|]. split; [exact Hne|]. split; [exact Hall|].
  split; [exact H1|]. split; [exact H2|].
  exact (proj2 (H4 Hne Hall)).
Defined.

Lemma onMove_style {Number : Type} (toString : Number -> string)
    (e : MouseEvent Number) (w : Window) :
  onMove toString e w =
  (Normal tt,
   with_style w (<["--my" := toString (clientY e) +:+ "px"]>
                 (<["--mx" := toString (clientX e) +:+ "px"]> (style w)))).
Proof. reflexivity. Qed.

Lemma onMoves_cons {Number : Type} (toString : Number -> string)
    (e : MouseEvent Number) (es : list (MouseEvent Number)) (w : Window) :
  onMoves toString (e :: es) w =
  onMoves toString es
    (with_style w (<["--my" := toString (clientY e) +:+ "px"]>
                   (<["--mx" := toString (clientX e) +:+ "px"]> (style w)))).
Proof. reflexivity. Qed.

(** X14. Pointer moves never throw and the last one wins: after any moves the
    two pointer variables hold the coordinates of the last event, every other
    style variable (the accent among them) is as before, and the storage is
    not touched. *)
Theorem onMoves_last_wins {Number : Type} (toString : Number -> string)
    (es : list (MouseEvent Number)) (e : MouseEvent Number) (w : Window) :
  let r := onMoves toString (es ++ [e]) w in
  fst r = Normal tt /\
  style (snd r) !! "--mx" = Some (toString (clientX e) +:+ "px") /\
  style (snd r) !! "--my" = Some (toString (clientY e) +:+ "px") /\
  (forall prop, prop <> "--mx" -> prop <> "--my" ->
     style (snd r) !! prop = style w !! prop) /\
  localStorage (snd r) = localStorage w.
Proof.
  revert w. induction es as [|e0 es IH]; intros w.
  - cbn [app onMoves]. unfold andThen, bind. rewrite onMove_style.
    cbn [fst snd ret with_style style localStorage].
    split; [reflexivity|].
    split; [now rewrite lookup_insert_ne, lookup_insert_eq by discriminate|].
    split; [now rewrite lookup_insert_eq|].
    split; [|reflexivity].
    intros prop H1 H2. now rewrite !lookup_insert_ne by congruence.
  - change ((e0 :: es) ++ [e]) with (e0 :: (es ++ [e])).
    rewrite onMoves_cons.
    specialize (IH (with_style w (<["--my" := toString (clientY e0) +:+ "px"]>
                                  (<["--mx" := toString (clientX e0) +:+ "px"]> (style w))))).
    cbv zeta in IH. destruct IH as (I1 & I2 & I3 & I4 & I5).
    split; [exact I1|]. split; [exact I2|]. split; [exact I3|].
    split; [|exact I5].
    intros prop H1 H2. rewrite (I4 prop H1 H2). cbn [with_style style].
    now rewrite !lookup_insert_ne by congruence.
Qed.

Lemma onMoves_last_wins_witness :
  let w := {| localStorage := {| accessible := true; full := false;
                                 items := <["accent" := "#84CC16"]> ∅ |};
              style := <["--accent" := "#84CC16"]> ∅ |} in
  let r := onMoves (fun printed : string => printed)
             ([ {| clientX := "10"; clientY := "20" |} ] ++
              [ {| clientX := "640"; clientY := "360" |} ]) w in
  "--accent" <> "--mx" /\ "--accent" <> "--my" /\
  style (snd r) !! "--mx" = Some "640px" /\
  style (snd r) !! "--accent" = Some "#84CC16".
Proof.
  intros w r.
  assert (H1 : "--accent" <> "--mx") by discriminate.
  assert (H2 : "--accent" <> "--my") by discriminate.
  destruct (onMoves_last_wins (fun printed : string => printed)
              [ {| clientX := "10"; clientY := "20" |} ]
              {| clientX := "640"; clientY := "360" |} w) as (_ & Hx & _ & Ho & _).
  split; [exact H1|]. split; [exact H2|]. split; [exact Hx|].
  exact (Ho "--accent" H1 H2).
Defined.

(** * Toast: further proofs *)

Lemma render_deadline_near (s : AppState) : deadline_near s -> deadline_near (render s).
Proof.
  intros H fx. unfold render, Toast_commit, Toast_effect. simpl.
  destruct (truthy (toast s)); [|discriminate].
  destruct (toastEffect s) as [fx0|] eqn:E.
  - destruct (dep fx0 =? S (renders s))%nat.
    + intros [= <-]. now apply H.
    + intros [= <-]. simpl. lia.
  - intros [= <-]. simpl. lia.
Qed.

Lemma setToast_deadline_near (v : option string) (s : AppState) :
  deadline_near s -> deadline_near (setToast v s).
Proof.
  intros H. unfold setToast. destruct (Object_is v (toast s)); [exact H|].
  apply render_deadline_near. exact H.
Qed.

Lemma setToast_clock (v : option string) (s : AppState) :
  clock (setToast v s) = clock s.
Proof. unfold setToast. now destruct (Object_is v (toast s)). Qed.

Lemma advance_deadline_near (d : nat) (s : AppState) :
  deadline_near s -> deadline_near (advance d s).
Proof.
  intros H. unfold advance. destruct (toastEffect s) as [fx|] eqn:E.
  - destruct (Nat.leb_spec (fires fx) (clock s + d)) as [Hdue|Hnot].
    + assert (Hin : deadline_near (onClose (at_time (fires fx) s))).
      { apply setToast_deadline_near. intros fx' E'. cbn in E'.
        rewrite E in E'. injection E' as <-. cbn. lia. }
      intros fx' E'. cbn [at_time toastEffect clock] in *.
      specialize (Hin fx' E'). unfold onClose in Hin.
      rewrite setToast_clock in Hin. cbn in Hin. lia.
    + intros fx' E'. cbn in E'. rewrite E in E'. injection E' as <-.
      specialize (H fx E). cbn. lia.
  - intros fx' E'. cbn in E'. congruence.
Qed.

Lemma run_deadline_near (evs : list Event) : deadline_near (run evs).
Proof.
  unfold run.
  assert (H0 : deadline_near App_mount) by (intros fx [=]).
  revert H0. generalize App_mount.
  induction evs as [|ev evs IH]; intros s Hs; simpl; [exact Hs|].
  apply IH. destruct ev as [v| |d]; simpl.
  - now apply setToast_deadline_near.
  - now apply render_deadline_near.
  - now apply advance_deadline_near.
Qed.

(** X15. In every state the page can reach, a dismissal timer is pending
    exactly while a message is on screen, it was set by a render that has
    happened, and it falls due after now and at most 1800 ms from now. *)
Theorem toast_timer_invariant (evs : list Event) :
  let s := run evs in
  (toastEffect s = None <-> visible s = None) /\
  forall fx, toastEffect s = Some fx ->
    (dep fx <= renders s)%nat /\
    (clock s < fires fx)%nat /\ (fires fx <= clock s + 1800)%nat.
Proof.
  intros s. destruct (run_consistent evs) as [Hp Hv].
  split; [exact Hv|]. intros fx E.
  destruct (Hp fx E) as [H1 H2].
  pose proof (run_deadline_near evs fx E) as H3. auto.
Qed.

Lemma toast_timer_invariant_witness :
  toastEffect (run [SetToast (Some "Message sent"); Elapse 500; Rerender; Elapse 700])
    = Some {| dep := 3; fires := 2300 |} /\
  (3 <= 3)%nat /\ (1200 < 2300)%nat /\ (2300 <= 1200 + 1800)%nat.
Proof.
  assert (E : toastEffect (run [SetToast (Some "Message sent"); Elapse 500; Rerender;
                                Elapse 700])
              = Some {| dep := 3; fires := 2300 |}) by reflexivity.
  split; [exact E|].
  exact (proj2 (toast_timer_invariant
                  [SetToast (Some "Message sent"); Elapse 500; Rerender; Elapse 700])
           _ E).
Defined.

(** X16. Every toast goes away by itself: from whatever state the page has
    reached, once 1800 ms or more pass with no other event there is no
    message on screen and no timer pending. *)
Theorem toast_auto_dismisses (evs : list Event) (d : nat) :
  (1800 <= d)%nat ->
  visible (advance d (run evs)) = None /\
  toastEffect (advance d (run evs)) = None.
Proof.
  intros Hd. pose proof (run_consistent evs) as Hc.
  pose proof (run_deadline_near evs) as Hn.
  unfold advance. destruct (toastEffect (run evs)) as [fx|] eqn:E.
  - specialize (Hn fx E).
    destruct (Nat.leb_spec (fires fx) (clock (run evs) + d)) as [_|?]; [|lia].
    rewrite (onClose_when_pending _ _ fx Hc E). split; reflexivity.
  - split; [|exact E]. unfold visible. simpl. now apply Hc.
Qed.

Lemma toast_auto_dismisses_witness :
  (1800 <= 1800)%nat /\
  visible (run [SetToast (Some "Message sent"); Elapse 500; Rerender; Elapse 700])
    = Some "Message sent" /\
  visible (advance 1800
             (run [SetToast (Some "Message sent"); Elapse 500; Rerender; Elapse 700]))
    = None.
Proof.
  assert (H : (1800 <= 1800)%nat) by lia.
  split; [exact H|]. split; [reflexivity|].
  exact (proj1 (toast_auto_dismisses
                  [SetToast (Some "Message sent"); Elapse 500; Rerender; Elapse 700]
                  1800 H)).
Defined.

(** X17. Closing the toast by hand (or by its timer) cancels the timer: after
    [onClose], in any reachable state, nothing is on screen, no timeout is
    pending, and the passing of time changes nothing but the clock. *)
Theorem toast_close_cancels_timer (evs : list Event) (d : nat) :
  let s := onClose (run evs) in
  visible s = None /\ toastEffect s = None /\
  advance d s = at_time (clock s + d) s.
Proof.
  intros s. pose proof (run_consistent evs) as Hc.
  assert (Hs : consistent s) by (now apply setToast_consistent).
  assert (Ht : toast s = None) by apply setToast_toast.
  assert (Hv : visible s = None) by (unfold visible; now rewrite Ht).
  assert (He : toastEffect s = None) by (now apply Hs).
  split; [exact Hv|]. split; [exact He|].
  unfold advance. now rewrite He.
Qed.

(** X18. Any render of [App] while a message is on screen postpones its
    dismissal: counted from that render, the message stays for less than
    1800 ms and is gone from then on, however long it had been showing. *)
Theorem rerender_postpones_dismissal (s : AppState) (m : string) (d : nat) :
  consistent s -> visible s = Some m ->
  visible (advance d (render s)) = if (d <? 1800)%nat then Some m else None.
Proof.
  intros Hc Hv.
  pose proof (render_restarts_timer s m Hc Hv) as Hfx.
  assert (Hc' : consistent (render s)) by (apply render_consistent, Hc).
  unfold advance. rewrite Hfx.
  rewrite (onClose_when_pending _ (render s) _ Hc' Hfx). cbn [fires].
  change (clock (render s)) with (clock s).
  destruct (Nat.ltb_spec d 1800) as [Hd|Hd].
  - destruct (Nat.leb_spec (clock s + 1800) (clock s + d)) as [?|_]; [lia|].
    exact Hv.
  - destruct (Nat.leb_spec (clock s + 1800) (clock s + d)) as [_|?]; [|lia].
    reflexivity.
Qed.

Lemma rerender_postpones_dismissal_witness :
  consistent emailCopiedShown /\
  visible emailCopiedShown = Some "Email copied" /\
  visible (advance 800 emailCopiedShown) = None /\
  visible (advance 1799 (render emailCopiedShown)) = Some "Email copied".
Proof.
  assert (Hc : consistent emailCopiedShown) by apply run_consistent.
  split; [exact Hc|]. split; [reflexivity|]. split; [reflexivity|].
  exact (rerender_postpones_dismissal emailCopiedShown "Email copied" 1799 Hc eq_refl).
Defined.

Lemma setToast_idem (v : option string) (s : AppState) :
  setToast v (setToast v s) = setToast v s.
Proof.
  unfold setToast at 1.
  now rewrite (proj2 (Object_is_true v (toast (setToast v s)))
                 (eq_sym (setToast_toast v s))).
Qed.

(** X19. Repeating a copy, or a form submission, right after the first one
    changes nothing at all: the message is the same, so no render happens and
    the dismissal timer of the first one keeps running. *)
Theorem copy_twice_is_copy_once (navigator : Navigator) (text label : string)
    (s : AppState) :
  snd (copy navigator text label (snd (copy navigator text label s))) =
    snd (copy navigator text label s) /\
  onSubmit (onSubmit s) = onSubmit s.
Proof.
  split; [|apply setToast_idem].
  unfold copy, try_catch, andThen, bind, writeText, modify.
  destruct (clipboard navigator) as [write|]; cbn [fst snd].
  - destruct (write text); cbn [fst snd]; apply setToast_idem.
  - apply setToast_idem.
Qed.

(** * Modal: further proofs *)

Lemma listener_matches_effect (s : ModalState) :
  listener_matches s -> effect_matches s.
Proof.
  unfold listener_matches, effect_matches.
  destruct (openProject s).
  - intros (d & -> & Hl & Hd). auto.
  - intros [-> Hl]. exact Hl.
Qed.

Lemma removeEventListener_only (d : nat) : removeEventListener d [d] = [].
Proof. unfold removeEventListener. simpl. now rewrite Nat.eqb_refl. Qed.

Lemma Modal_render_matches (s : ModalState) :
  effect_matches s -> listener_matches (Modal_render s).
Proof.
  unfold effect_matches, listener_matches, Modal_render, Modal_commit.
  cbn [openProject modalEffect keydownListeners modalRenders].
  destruct (openProject s) as [p|]; destruct (modalEffect s) as [d|].
  - intros [-> Hd].
    destruct (Nat.eqb_spec d (S (modalRenders s))) as [E|_]; [lia|].
    rewrite removeEventListener_only. exists (S (modalRenders s)). auto.
  - intros ->. exists (S (modalRenders s)). auto.
  - intros [-> _]. now rewrite removeEventListener_only.
  - intros ->. auto.
Qed.

Lemma setOpenProject_matches (v : option nat) (s : ModalState) :
  listener_matches s -> listener_matches (setOpenProject v s).
Proof.
  intros H. unfold setOpenProject.
  destruct (Object_is_ref v (openProject s)); [exact H|].
  apply Modal_render_matches. apply listener_matches_effect in H. exact H.
Qed.

(** Closing leaves no project open and no listener behind. *)
Lemma Modal_onClose_closed (s : ModalState) :
  listener_matches s ->
  openProject (Modal_onClose s) = None /\ keydownListeners (Modal_onClose s) = [] /\
  modalEffect (Modal_onClose s) = None.
Proof.
  intros H. pose proof (setOpenProject_matches None s H) as H'.
  fold (Modal_onClose s) in H'.
  assert (E : openProject (Modal_onClose s) = None).
  { unfold Modal_onClose, setOpenProject.
    destruct (openProject s) eqn:Eo; simpl; [reflexivity | exact Eo]. }
  unfold listener_matches in H'. rewrite E in H'. tauto.
Qed.

Lemma keydown_one (key : string) (s : ModalState) :
  listener_matches s ->
  keydown key s = match openProject s with
                  | Some _ => onKey key s
                  | None => s
                  end.
Proof.
  unfold listener_matches, keydown.
  destruct (openProject s).
  - intros (d & _ & -> & _). reflexivity.
  - intros [_ ->]. reflexivity.
Qed.

Lemma Modal_step_matches (s : ModalState) (ev : ModalEvent) :
  listener_matches s -> listener_matches (Modal_step s ev).
Proof.
  intros H. destruct ev as [p|key|target| |]; simpl.
  - now apply setOpenProject_matches.
  - rewrite (keydown_one key s H). destruct (openProject s) eqn:E.
    + unfold onKey. destruct (key =? "Escape")%string; [|exact H].
      now apply setOpenProject_matches.
    + exact H.
  - unfold mousedown. destruct (openProject s) eqn:E; [|exact H].
    destruct target; simpl; [now apply setOpenProject_matches | exact H].
  - destruct (openProject s) eqn:E; [|exact H]. now apply setOpenProject_matches.
  - apply Modal_render_matches, listener_matches_effect, H.
Qed.

Lemma Modal_run_matches (evs : list ModalEvent) : listener_matches (Modal_run evs).
Proof.
  unfold Modal_run.
  assert (H0 : listener_matches Modal_mount) by (split; reflexivity).
  revert H0. generalize Modal_mount.
  induction evs as [|ev evs IH]; intros s Hs; simpl; [exact Hs|].
  apply IH, Modal_step_matches, Hs.
Qed.

(** X20. No listener leaks: after any sequence of card clicks, key presses,
    mouse presses, clicks on the close button and renders of [App], exactly
    one [keydown] listener is registered while a project is open and none
    while the modal is closed. *)
Theorem modal_listener_count (evs : list ModalEvent) :
  length (keydownListeners (Modal_run evs)) =
  match openProject (Modal_run evs) with
  | Some _ => 1%nat
  | None => 0%nat
  end.
Proof.
  pose proof (Modal_run_matches evs) as H. unfold listener_matches in H.
  destruct (openProject (Modal_run evs)).
  - destruct H as (d & _ & -> & _). reflexivity.
  - destruct H as [_ ->]. reflexivity.
Qed.

Example modal_listener_trace :
  map (fun n => keydownListeners
                  (Modal_run (firstn n [ClickCard 0; AppRerender; ClickCard 2;
                                        KeyDown "Enter"; KeyDown "Escape";
                                        KeyDown "Escape"])))
      [0; 1; 2; 3; 4; 5; 6]%nat =
  [[]; [2]; [3]; [4]; [4]; []; []]%nat.
Proof. reflexivity. Qed.

(** X21. In every reachable state, pressing Escape leaves the modal closed
    with no listener registered; pressing any other key changes nothing; and
    while the modal is closed no key changes anything. *)
Theorem modal_keys (evs : list ModalEvent) (key : string) :
  let s := Modal_run evs in
  openProject (keydown "Escape" s) = None /\
  keydownListeners (keydown "Escape" s) = [] /\
  (key <> "Escape" -> keydown key s = s) /\
  (openProject s = None -> keydown key s = s).
Proof.
  intros s. pose proof (Modal_run_matches evs) as H. fold s in H.
  rewrite !(keydown_one _ s H).
  destruct (openProject s) as [p|] eqn:E.
  - destruct (Modal_onClose_closed s H) as (H1 & H2 & _).
    split; [exact H1|]. split; [exact H2|]. split; [|discriminate].
    intros Hk. unfold onKey.
    destruct (String.eqb_spec key "Escape"); [contradiction | reflexivity].
  - unfold listener_matches in H. rewrite E in H. destruct H as [_ Hl]. auto.
Qed.

Lemma modal_keys_witness :
  "Enter" <> "Escape" /\
  openProject (Modal_run [ClickCard 1]) = Some 1%nat /\
  keydown "Enter" (Modal_run [ClickCard 1]) = Modal_run [ClickCard 1] /\
  openProject (keydown "Escape" (Modal_run [ClickCard 1])) = None /\
  openProject (Modal_run []) = None /\
  keydown "Escape" (Modal_run []) = Modal_run [].
Proof.
  assert (H : "Enter" <> "Escape") by discriminate.
  split; [exact H|]. split; [reflexivity|].
  split; [exact (proj1 (proj2 (proj2 (modal_keys [ClickCard 1] "Enter"))) H)|].
  split; [exact (proj1 (modal_keys [ClickCard 1] "Enter"))|].
  split; [reflexivity|].
  exact (proj2 (proj2 (proj2 (modal_keys [] "Escape"))) eq_refl).
Defined.

(** X22. In every reachable state, a mouse press inside the card changes
    nothing (the card stops the event before the backdrop sees it), and a
    mouse press on the backdrop leaves the modal closed with no listener
    registered. *)
Theorem modal_mouse (evs : list ModalEvent) :
  let s := Modal_run evs in
  mousedown Card s = s /\
  openProject (mousedown Backdrop s) = None /\
  keydownListeners (mousedown Backdrop s) = [].
Proof.
  intros s. pose proof (Modal_run_matches evs) as H. fold s in H.
  unfold mousedown. destruct (openProject s) as [p|] eqn:E; simpl.
  - destruct (Modal_onClose_closed s H) as (H1 & H2 & _). auto.
  - unfold listener_matches in H. rewrite E in H. destruct H as [_ Hl]. auto.
Qed.
